(** * Reference LRN (local response normalization): forward and backward

    A shallow embedding of [src/cpu/ref_lrn.cpp]: the layout addressing
    function [data_off], the helper [fast_negative_powf], the forward and
    backward kernels [ker] and the loop nests that drive them.

    Modelling choices.
    - C [int] values are [Z].  Signed overflow is undefined in C, so the
      model covers the executions in which every product of dimensions fits
      the machine integer; [/] and [%] are the truncating [Z.quot] and
      [Z.rem].
    - [float] is an abstract carrier [F] with the operations the source uses
      ([FloatOps]).  The kernels are written once over that interface, in the
      order of operations of the source, so a statement proved for every
      [FloatOps] holds for IEEE single precision as well.  The instance on
      [R] gives the mathematical reading, in which [x^(-beta)] is [Rpower].
    - A buffer is a total map from linear offsets to [F]; [src] and
      [diff_dst] are read only, [dst], [ws] and [diff_src] are updated by
      [upd].  The buffers of one call are distinct objects.
    - A [for] loop is the list of the values its counter takes, in order;
      the [omp parallel for] nests are read sequentially. *)

From Stdlib Require Import ZArith List Finite Permutation Bool Lia Reals Lra.
Import ListNotations.
Open Scope Z_scope.

(** ** Counted loops *)

(** [for (c = c_st; c < c_en; c += step)]: the values of [c], in order. *)
Fixpoint for_loop (fuel : nat) (c c_en step : Z) : list Z :=
  match fuel with
  | O => []
  | S n => if c <? c_en then c :: for_loop n (c + step) c_en step else []
  end.

Definition for_range (c_st c_en step : Z) : list Z :=
  for_loop (Z.to_nat (c_en - c_st)) c_st c_en step.

(** [for (c = c_st; c < c_en; ++c)] *)
Definition range (c_st c_en : Z) : list Z := for_range c_st c_en 1.

(** ** Floating point interface *)

Class FloatOps (F : Type) : Type := {
  f_add : F -> F -> F;
  f_sub : F -> F -> F;
  f_mul : F -> F -> F;
  f_div : F -> F -> F;
  f_sqrt : F -> F;                (* sqrtf *)
  f_pow : F -> F -> F;            (* powf *)
  f_of_int : Z -> F;              (* int to float conversion, and literals *)
  f_three_quarters : F;           (* 0.75f *)
  f_eqb : F -> F -> bool          (* == *)
}.

(** Buffers. *)
Definition buffer (F : Type) : Type := Z -> F.

Definition upd {F : Type} (b : buffer F) (off : Z) (v : F) : buffer F :=
  fun i => if i =? off then v else b i.

(** ** Memory formats and shapes *)

Inductive memory_format : Type := nChw16c | nChw8c | nchw | nhwc | any.

Definition is_blocked (fmt : memory_format) : bool :=
  match fmt with nChw16c | nChw8c => true | _ => false end.

(** [constexpr int blksize = fmt == nChw16c ? 16 : 8] *)
Definition blksize (fmt : memory_format) : Z :=
  match fmt with nChw16c => 16 | _ => 8 end.

(** What [conf_] gives about the tensor: the four dimensions and, for the
    formats that are not special-cased, the offset function of the memory
    descriptor ([data_d.off]). *)
Record lrn_shape : Type := {
  MB : Z;
  C : Z;
  H : Z;
  W : Z;
  data_d_off : Z -> Z -> Z -> Z -> Z
}.

Definition CHW (s : lrn_shape) : Z := C s * H s * W s.

(** The lambda [data_off] (the same text in forward and in backward). *)
Definition data_off (fmt : memory_format) (s : lrn_shape) (mb c h w : Z) : Z :=
  match fmt with
  | nChw16c | nChw8c =>
      mb * CHW s + Z.quot c (blksize fmt) * H s * W s * blksize fmt
      + h * W s * blksize fmt + w * blksize fmt + Z.rem c (blksize fmt)
  | nchw => mb * CHW s + c * H s * W s + h * W s + w
  | nhwc => mb * CHW s + h * W s * C s + w * C s + c
  | any => data_d_off s mb c h w
  end.

(** ** The loop nests of [execute_forward] and [execute_backward]

    Both functions end in the same three nests.  A call
    [ker(&buf[off], mb, c, h, w)] is recorded as [(off, (mb, c, h, w))]. *)
Definition coord : Type := (Z * Z * Z * Z)%type.
Definition ker_call : Type := (Z * coord)%type.

Definition loop_nest (fmt : memory_format) (s : lrn_shape) : list ker_call :=
  if is_blocked fmt then
    flat_map (fun mb =>
    flat_map (fun c =>
    flat_map (fun h =>
    flat_map (fun w =>
      let off := mb * CHW s + c * H s * W s + (h * W s + w) * blksize fmt in
      map (fun cc => (off + cc, (mb, c + cc, h, w))) (range 0 (blksize fmt)))
    (range 0 (W s))) (range 0 (H s))) (for_range 0 (C s) (blksize fmt)))
    (range 0 (MB s))
  else match fmt with
  | nhwc =>
    flat_map (fun mb =>
    flat_map (fun h =>
    flat_map (fun w =>
    map (fun c =>
      let off := mb * CHW s + h * W s * C s + w * C s + c in
      (off, (mb, c, h, w)))
    (range 0 (C s))) (range 0 (W s))) (range 0 (H s))) (range 0 (MB s))
  | _ =>
    flat_map (fun mb =>
    flat_map (fun c =>
    flat_map (fun h =>
    map (fun w =>
      let off := data_off fmt s mb c h w in
      (off, (mb, c, h, w)))
    (range 0 (W s))) (range 0 (H s))) (range 0 (C s))) (range 0 (MB s))
  end.

(** ** Kernels *)

Section Kernels.
Context {F : Type} {ops : FloatOps F}.

(** [conf_.desc()]: the algorithm parameters, already as [float]. *)
Record lrn_desc : Type := {
  lrn_alpha : F;
  lrn_beta : F;
  lrn_k : F;
  local_size : Z;
  across_channels : bool
}.

Definition fast_negative_powf (omega beta : F) : F :=
  if f_eqb beta f_three_quarters then
    let Y := f_div (f_of_int 1) (f_sqrt omega) in
    f_mul Y (f_sqrt Y)
  else
    f_div (f_of_int 1) (f_pow omega beta).

(** [sum += s * s] for [s] read at each of the offsets, from [sum = 0]. *)
Definition sum_sq (src : buffer F) (offs : list Z) : F :=
  fold_left (fun sum o => let s := src o in f_add sum (f_mul s s))
            offs (f_of_int 0).

Variable fmt : memory_format.
Variable s : lrn_shape.
Variable desc : lrn_desc.

(** *** Forward *)

Definition half_size : Z := Z.quot (local_size desc - 1) 2.

(** The offsets at which the forward kernel reads [src] in its loops. *)
Definition fwd_window (mb oc oh ow : Z) : list Z :=
  if across_channels desc then
    let c_st := Z.max (oc - half_size + 0) 0 in
    let c_en := Z.min (oc + half_size + 1) (C s) in
    map (fun c => data_off fmt s mb c oh ow) (range c_st c_en)
  else
    let h_st := Z.max (oh - half_size + 0) 0 in
    let h_en := Z.min (oh + half_size + 1) (H s) in
    let w_st := Z.max (ow - half_size + 0) 0 in
    let w_en := Z.min (ow + half_size + 1) (W s) in
    flat_map (fun h =>
      map (fun w => data_off fmt s mb oc h w) (range w_st w_en))
      (range h_st h_en).

Definition summands : Z :=
  if across_channels desc then local_size desc
  else local_size desc * local_size desc.

(** [sum = k + alpha * sum / summands] *)
Definition fwd_omega (src : buffer F) (mb oc oh ow : Z) : F :=
  let sum := sum_sq src (fwd_window mb oc oh ow) in
  f_add (lrn_k desc)
        (f_div (f_mul (lrn_alpha desc) sum) (f_of_int summands)).

(** The value stored through [d]. *)
Definition fwd_value (src : buffer F) (mb oc oh ow : Z) : F :=
  let sum := fwd_omega src mb oc oh ow in
  let off := data_off fmt s mb oc oh ow in
  f_mul (src off) (fast_negative_powf sum (lrn_beta desc)).

(** The memory the forward primitive writes: [dst] and the optional
    workspace ([ws] is a null pointer when there is none). *)
Record fwd_state : Type := {
  dst : buffer F;
  ws : option (buffer F)
}.

(** The forward lambda [ker]; [d] is the offset of the pointer it gets. *)
Definition ker_fwd (src : buffer F) (st : fwd_state) (d mb oc oh ow : Z)
  : fwd_state :=
  let sum := fwd_omega src mb oc oh ow in
  let off := data_off fmt s mb oc oh ow in
  {| ws := match ws st with
           | Some w => Some (upd w off sum)
           | None => None
           end;
     dst := upd (dst st) d
                (f_mul (src off) (fast_negative_powf sum (lrn_beta desc))) |}.

Definition execute_forward (src : buffer F) (st : fwd_state) : fwd_state :=
  fold_left (fun st (call : ker_call) =>
               let '(d, (mb, c, h, w)) := call in ker_fwd src st d mb c h w)
            (loop_nest fmt s) st.

(** *** Backward *)

Definition half_ksize : Z := Z.quot (local_size desc - 1) 2.

(** The channels of both loops of the backward kernel. *)
Definition bwd_channels (oc : Z) : list Z :=
  let c_st := Z.max (oc - half_ksize + 0) 0 in
  let c_en := Z.min (oc + half_ksize + 1) (C s) in
  range c_st c_en.

(** The offsets the inner loop [for (i = c_st; i < c_en; ++i)] reads. *)
Definition bwd_window (mb oc oh ow : Z) : list Z :=
  map (fun i => data_off fmt s mb i oh ow) (bwd_channels oc).

(** The [omega] of iteration [c] of the outer loop: the inner loop runs
    over [c_st .. c_en] of the output channel [oc]. *)
Definition bwd_omega (src : buffer F) (mb oc oh ow : Z) (c : Z) : F :=
  let sum := sum_sq src (bwd_window mb oc oh ow) in
  f_add (lrn_k desc)
        (f_div (f_mul sum (lrn_alpha desc)) (f_of_int (local_size desc))).

(** One iteration of the outer loop, on the pair [(B, omega_mid)]. *)
Definition bwd_step (src diff_dst : buffer F) (mb oc oh ow : Z)
           (acc : F * F) (c : Z) : F * F :=
  let '(B, omega_mid) := acc in
  let omega := bwd_omega src mb oc oh ow c in
  let omega_mid := if c =? oc then omega else omega_mid in
  let t := f_mul (src (data_off fmt s mb c oh ow))
                 (fast_negative_powf omega (lrn_beta desc)) in
  (f_add B (f_mul (f_mul (f_div (f_of_int 1) omega) t)
                  (diff_dst (data_off fmt s mb c oh ow))),
   omega_mid).

(** The value stored through [d]. *)
Definition bwd_value (src diff_dst : buffer F) (mb oc oh ow : Z) : F :=
  let '(B, omega_mid) :=
    fold_left (bwd_step src diff_dst mb oc oh ow) (bwd_channels oc)
              (f_of_int 0, f_of_int 0) in
  let off := data_off fmt s mb oc oh ow in
  let A := f_mul (fast_negative_powf omega_mid (lrn_beta desc))
                 (diff_dst off) in
  let B := f_mul B (src off) in
  let B := f_mul B (f_div (f_mul (f_mul (f_of_int 2) (lrn_alpha desc))
                                 (lrn_beta desc))
                          (f_of_int (local_size desc))) in
  f_sub A B.

(** The inputs of the backward primitive.  [execute_backward] fetches
    inputs 0 and 1 only; a workspace, when the caller has one, is a third
    input that the function never looks at. *)
Record bwd_inputs : Type := {
  in_src : buffer F;
  in_diff_dst : buffer F;
  in_ws : option (buffer F)
}.

(** The backward lambda [ker]. *)
Definition ker_bwd (inp : bwd_inputs) (diff_src : buffer F)
           (d mb oc oh ow : Z) : buffer F :=
  upd diff_src d (bwd_value (in_src inp) (in_diff_dst inp) mb oc oh ow).

Definition execute_backward (inp : bwd_inputs) (diff_src : buffer F)
  : buffer F :=
  fold_left (fun b (call : ker_call) =>
               let '(d, (mb, c, h, w)) := call in ker_bwd inp b d mb c h w)
            (loop_nest fmt s) diff_src.

(** *** Memory accesses of one kernel call

    Every index at which a call [ker(&buf[d], mb, oc, oh, ow)] reads or
    writes one of its buffers. *)
Definition fwd_accesses (d mb oc oh ow : Z) : list Z :=
  d :: data_off fmt s mb oc oh ow :: fwd_window mb oc oh ow.

Definition bwd_accesses (d mb oc oh ow : Z) : list Z :=
  d :: data_off fmt s mb oc oh ow :: bwd_window mb oc oh ow.

End Kernels.

Arguments lrn_desc F : clear implicits.
Arguments fwd_state F : clear implicits.
Arguments bwd_inputs F : clear implicits.

(** ** Shapes, coordinates and layouts *)

Definition numel (s : lrn_shape) : Z := MB s * C s * H s * W s.

Definition nonneg_shape (s : lrn_shape) : Prop :=
  0 <= MB s /\ 0 <= C s /\ 0 <= H s /\ 0 <= W s.

Definition valid_coord (s : lrn_shape) (mb c h w : Z) : Prop :=
  0 <= mb < MB s /\ 0 <= c < C s /\ 0 <= h < H s /\ 0 <= w < W s.

(** The blocked formats hold whole blocks of channels. *)
Definition whole_blocks (fmt : memory_format) (s : lrn_shape) : Prop :=
  is_blocked fmt = true -> Z.rem (C s) (blksize fmt) = 0.

(** [f] is one-to-one from the valid coordinates onto [0 .. numel). *)
Definition bijective_layout (f : Z -> Z -> Z -> Z -> Z) (s : lrn_shape) : Prop :=
  (forall mb c h w, valid_coord s mb c h w -> 0 <= f mb c h w < numel s) /\
  (forall mb c h w mb' c' h' w',
      valid_coord s mb c h w -> valid_coord s mb' c' h' w' ->
      f mb c h w = f mb' c' h' w' -> (mb, c, h, w) = (mb', c', h', w')) /\
  (forall o, 0 <= o < numel s ->
             exists mb c h w, valid_coord s mb c h w /\ f mb c h w = o).

(** ** The computation in the words of the specification

    The definitions of this section follow the text of the specification,
    on logical tensors indexed by [(mb, c, h, w)]; they are what the kernels
    above are compared with. *)

Definition tensor (F : Type) : Type := Z -> Z -> Z -> Z -> F.

(** The logical tensor a buffer holds under a format. *)
Definition view {F : Type} (fmt : memory_format) (s : lrn_shape)
           (b : buffer F) : tensor F :=
  fun mb c h w => b (data_off fmt s mb c h w).

Definition represents {F : Type} (fmt : memory_format) (s : lrn_shape)
           (b : buffer F) (x : tensor F) : Prop :=
  forall mb c h w, valid_coord s mb c h w -> view fmt s b mb c h w = x mb c h w.

(** The window [center - half, center + half] clamped to [0, n). *)
Definition clamped (center half n : Z) : list Z :=
  filter (fun i => (center - half <=? i) && (i <=? center + half)) (range 0 n).

Section Spec.
Context {F : Type} {ops : FloatOps F}.
Variable s : lrn_shape.
Variable desc : lrn_desc F.

Definition sum_squares (vs : list F) : F :=
  fold_left (fun acc v => f_add acc (f_mul v v)) vs (f_of_int 0).

Definition spec_half : Z := (local_size desc - 1) / 2.

(** The source elements of the neighborhood of [(mb, oc, oh, ow)]. *)
Definition spec_neighborhood (x : tensor F) (mb oc oh ow : Z) : list F :=
  if across_channels desc then
    map (fun c => x mb c oh ow) (clamped oc spec_half (C s))
  else
    flat_map (fun h => map (fun w => x mb oc h w)
                           (clamped ow spec_half (W s)))
             (clamped oh spec_half (H s)).

Definition spec_summands : Z :=
  if across_channels desc then local_size desc else local_size desc ^ 2.

(** [omega = k + alpha * S / summands] *)
Definition spec_omega (x : tensor F) (mb oc oh ow : Z) : F :=
  f_add (lrn_k desc)
        (f_div (f_mul (lrn_alpha desc)
                      (sum_squares (spec_neighborhood x mb oc oh ow)))
               (f_of_int spec_summands)).

(** [dst = src * omega^(-beta)], the power through the helper. *)
Definition spec_forward (x : tensor F) (mb oc oh ow : Z) : F :=
  f_mul (x mb oc oh ow)
        (fast_negative_powf (spec_omega x mb oc oh ow) (lrn_beta desc)).

(** Backward, step 2: the normalization factor of channel [c], over the
    window of [c] itself. *)
Definition spec_channel_omega (x : tensor F) (mb c oh ow : Z) : F :=
  f_add (lrn_k desc)
        (f_div (f_mul (lrn_alpha desc)
                      (sum_squares (map (fun i => x mb i oh ow)
                                        (clamped c spec_half (C s)))))
               (f_of_int (local_size desc))).

(** Backward, step 3: the cross term [B]. *)
Definition spec_B (x dy : tensor F) (mb oc oh ow : Z) : F :=
  fold_left
    (fun B c =>
       let omega_c := spec_channel_omega x mb c oh ow in
       f_add B (f_mul (f_mul (f_div (f_of_int 1) omega_c)
                             (f_mul (x mb c oh ow)
                                    (fast_negative_powf omega_c
                                                        (lrn_beta desc))))
                      (dy mb c oh ow)))
    (clamped oc spec_half (C s)) (f_of_int 0).

(** Backward, steps 4 and 5. *)
Definition spec_backward (x dy : tensor F) (mb oc oh ow : Z) : F :=
  let A := f_mul (fast_negative_powf (spec_channel_omega x mb oc oh ow)
                                     (lrn_beta desc))
                 (dy mb oc oh ow) in
  let B := spec_B x dy mb oc oh ow in
  f_sub A (f_mul (f_mul B (x mb oc oh ow))
                 (f_div (f_mul (f_mul (f_of_int 2) (lrn_alpha desc))
                               (lrn_beta desc))
                        (f_of_int (local_size desc)))).
End Spec.

(** Backward with the workspace reused, which the specification allows
    ("the workspace optimization from forward may be reused here to avoid
    recomputing omega_c"): steps 3 to 5 with the normalization factor of
    every channel of the window read from the workspace tensor [omega]. *)
Definition spec_backward_reuse {F : Type} {ops : FloatOps F}
           (s : lrn_shape) (desc : lrn_desc F) (x dy omega : tensor F)
           (mb oc oh ow : Z) : F :=
  let A := f_mul (fast_negative_powf (omega mb oc oh ow) (lrn_beta desc))
                 (dy mb oc oh ow) in
  let B :=
    fold_left
      (fun B c =>
         f_add B (f_mul (f_mul (f_div (f_of_int 1) (omega mb c oh ow))
                               (f_mul (x mb c oh ow)
                                      (fast_negative_powf (omega mb c oh ow)
                                                          (lrn_beta desc))))
                        (dy mb c oh ow)))
      (clamped oc (spec_half desc) (C s)) (f_of_int 0) in
  f_sub A (f_mul (f_mul B (x mb oc oh ow))
                 (f_div (f_mul (f_mul (f_of_int 2) (lrn_alpha desc))
                               (lrn_beta desc))
                        (f_of_int (local_size desc)))).

(** ** Real arithmetic

    The mathematical reading of the operations.  [powf] is [Rpower], which
    is the power function on positive bases. *)

#[export] Instance R_ops : FloatOps R := {|
  f_add := Rplus;
  f_sub := Rminus;
  f_mul := Rmult;
  f_div := Rdiv;
  f_sqrt := sqrt;
  f_pow := Rpower;
  f_of_int := IZR;
  f_three_quarters := (3 / 4)%R;
  f_eqb := fun x y => if Req_dec_T x y then true else false
|}.

(** ** Sequential writes *)

(** The argument of the last call of [l] that writes offset [o], if any. *)
Definition last_write {T : Type} (o : Z) (l : list (Z * T)) : option T :=
  fold_left (fun r call => if fst call =? o then Some (snd call) else r)
            l None.

(** ** Concrete inputs *)

(** A shape of the given dimensions (the descriptor offset plays no part
    under the four special-cased formats). *)
Definition mk_shape (mb c h w : Z) : lrn_shape :=
  {| MB := mb; C := c; H := h; W := w; data_d_off := fun _ _ _ _ => 0 |}.

(** Across channels, a window of one element, [alpha = beta = k = 1]. *)
Definition unit_desc : lrn_desc R :=
  {| lrn_alpha := 1%R; lrn_beta := 1%R; lrn_k := 1%R;
     local_size := 1; across_channels := true |}.

(** The buffer that holds 1 everywhere, and an output buffer of zeros with
    no workspace. *)
Definition ones : buffer R := fun _ => 1%R.

Definition zero_state : fwd_state R := {| dst := fun _ => 0%R; ws := None |}.

(** A backward input on which the window of a neighbor matters: three
    channels holding 1, 1, 2 at one pixel, [local_size = 3], [alpha = 3],
    [beta = 1], [k = 2] and an upstream gradient of 1.  Every intermediate
    value is a small dyadic number, so single precision computes on it
    exactly as the reals do. *)
Definition shape3 : lrn_shape := mk_shape 1 3 1 1.

Definition desc3 : lrn_desc R :=
  {| lrn_alpha := 3%R; lrn_beta := 1%R; lrn_k := 2%R;
     local_size := 3; across_channels := true |}.

Definition src3 : buffer R := fun o => if o =? 2 then 2%R else 1%R.

(** * Properties *)

(** ** Loops *)

Lemma for_loop_count (n : nat) :
  forall (fuel : nat) (c c_en step : Z),
    (n <= fuel)%nat ->
    (forall i, (i < n)%nat -> c + Z.of_nat i * step < c_en) ->
    c_en <= c + Z.of_nat n * step ->
    for_loop fuel c c_en step
    = map (fun i => c + Z.of_nat i * step) (seq 0 n).
Proof.
  induction n as [|n IH]; intros fuel c c_en step Hfuel Hlt Hge.
  - destruct fuel; simpl; [reflexivity|].
    destruct (Z.ltb_spec c c_en); [lia|reflexivity].
  - destruct fuel as [|fuel]; [lia|]. simpl.
    destruct (Z.ltb_spec c c_en) as [_|Hc].
    + f_equal; [lia|].
      rewrite <- seq_shift, map_map.
      rewrite (IH fuel (c + step) c_en step); [| lia | | lia].
      * apply map_ext. intros i. lia.
      * intros i Hi. specialize (Hlt (S i)). lia.
    + specialize (Hlt O). lia.
Qed.

Lemma range_seq (lo hi : Z) :
  range lo hi = map (fun i => lo + Z.of_nat i) (seq 0 (Z.to_nat (hi - lo))).
Proof.
  unfold range, for_range.
  rewrite (for_loop_count (Z.to_nat (hi - lo))); [| lia | intros; lia | lia].
  apply map_ext. intros. lia.
Qed.

Lemma range_empty (lo hi : Z) : hi <= lo -> range lo hi = [].
Proof.
  intros Hle. rewrite range_seq.
  replace (Z.to_nat (hi - lo)) with O by lia. reflexivity.
Qed.

Lemma range_cons (lo hi : Z) :
  lo < hi -> range lo hi = lo :: range (lo + 1) hi.
Proof.
  intros Hlt. rewrite !range_seq.
  replace (Z.to_nat (hi - lo)) with (S (Z.to_nat (hi - (lo + 1)))) by lia.
  cbn [seq map]. f_equal; [lia|].
  rewrite <- seq_shift, map_map. apply map_ext. intros. lia.
Qed.

Lemma map_seq_from {A : Type} (f : nat -> A) (n : nat) :
  forall k, map f (seq k n) = map (fun i => f (k + i)%nat) (seq 0 n).
Proof.
  induction n as [|n IH]; intros k; [reflexivity|].
  cbn [seq map]. rewrite Nat.add_0_r. f_equal.
  rewrite (IH (S k)), <- seq_shift, map_map.
  apply map_ext. intros i. f_equal. lia.
Qed.

Lemma range_app (lo mid hi : Z) :
  lo <= mid <= hi -> range lo hi = range lo mid ++ range mid hi.
Proof.
  intros Hm. rewrite !range_seq.
  replace (Z.to_nat (hi - lo))
    with (Z.to_nat (mid - lo) + Z.to_nat (hi - mid))%nat by lia.
  rewrite seq_app, map_app. f_equal.
  rewrite map_seq_from. apply map_ext. intros i. lia.
Qed.

Lemma range_shift (lo hi k : Z) :
  range (k + lo) (k + hi) = map (fun x => k + x) (range lo hi).
Proof.
  rewrite !range_seq, map_map.
  replace (k + hi - (k + lo)) with (hi - lo) by lia.
  apply map_ext. intros. lia.
Qed.

Lemma in_range (lo hi x : Z) : In x (range lo hi) <-> lo <= x < hi.
Proof.
  rewrite range_seq, in_map_iff. split.
  - intros [i [<- Hi]]. apply in_seq in Hi. lia.
  - intros Hx. exists (Z.to_nat (x - lo)). split; [lia|].
    apply in_seq. lia.
Qed.

Lemma NoDup_range (lo hi : Z) : NoDup (range lo hi).
Proof.
  rewrite range_seq. apply Finite.Injective_map_NoDup.
  - intros i j. lia.
  - apply seq_NoDup.
Qed.

(** The channel loop of the blocked nests starts a block at every multiple
    of [step] below [c_en]. *)
Lemma in_for_loop (fuel : nat) :
  forall (c c_en step x : Z),
    0 < step -> (Z.to_nat (c_en - c) <= fuel)%nat ->
    In x (for_loop fuel c c_en step)
    <-> (x < c_en /\ exists k, 0 <= k /\ x = c + k * step).
Proof.
  induction fuel as [|fuel IH]; intros c c_en step x Hstep Hfuel.
  - simpl. split; [tauto|]. intros [Hx [k [Hk ->]]]. nia.
  - simpl. destruct (Z.ltb_spec c c_en) as [Hc|Hc].
    + simpl. rewrite IH by lia. split.
      * intros [<- | [Hx [k [Hk ->]]]].
        -- split; [lia|]. exists 0. lia.
        -- split; [lia|]. exists (k + 1). lia.
      * intros [Hx [k [Hk ->]]].
        destruct (Z.eq_dec k 0) as [-> | Hk0]; [left; lia|].
        right. split; [lia|]. exists (k - 1). lia.
    + split; [intros []|]. intros [Hx [k [Hk ->]]]. nia.
Qed.

Lemma in_block_starts (n step x : Z) :
  0 < step ->
  In x (for_range 0 n step) <-> (0 <= x < n /\ exists k, 0 <= k /\ x = k * step).
Proof.
  intros Hstep. unfold for_range. rewrite in_for_loop by lia.
  split.
  - intros [Hx [k [Hk ->]]]. split; [nia|]. exists k. lia.
  - intros [Hx [k [Hk ->]]]. split; [lia|]. exists k. lia.
Qed.

Lemma block_starts_whole (q step : Z) :
  0 < step -> 0 <= q ->
  for_range 0 (q * step) step = map (fun i => i * step) (range 0 q).
Proof.
  intros Hstep Hq. unfold for_range.
  rewrite (for_loop_count (Z.to_nat q)); [| nia | intros; nia | nia].
  rewrite range_seq, map_map. rewrite Z.sub_0_r. reflexivity.
Qed.

(** The clamped window of the specification is the loop range of the code. *)
Lemma filter_range (a b : Z) (k : nat) :
  forall lo hi, Z.to_nat (hi - lo) = k ->
    filter (fun i => (a <=? i) && (i <=? b)) (range lo hi)
    = range (Z.max a lo) (Z.min (b + 1) hi).
Proof.
  induction k as [|k IH]; intros lo hi Hk.
  - rewrite !range_empty by lia. reflexivity.
  - rewrite (range_cons lo hi) by lia. cbn [filter].
    rewrite (IH (lo + 1) hi) by lia.
    destruct (Z.leb_spec a lo); destruct (Z.leb_spec lo b); cbn [andb].
    + rewrite (range_cons (Z.max a lo)) by lia.
      f_equal; [lia|]. f_equal; lia.
    + rewrite !range_empty by lia. reflexivity.
    + f_equal; lia.
    + rewrite !range_empty by lia. reflexivity.
Qed.

Lemma clamped_range (center half n : Z) :
  clamped center half n
  = range (Z.max (center - half + 0) 0) (Z.min (center + half + 1) n).
Proof.
  unfold clamped.
  rewrite (filter_range _ _ (Z.to_nat (n - 0))) by reflexivity.
  f_equal; lia.
Qed.

(** ** The offsets the loop nests produce *)

Lemma map_flat_map {A B D : Type} (f : B -> D) (g : A -> list B) (l : list A) :
  map f (flat_map g l) = flat_map (fun a => map f (g a)) l.
Proof.
  induction l as [|a l IH]; [reflexivity|].
  cbn [flat_map]. rewrite map_app, IH. reflexivity.
Qed.

Lemma flat_map_map {A B D : Type} (f : B -> list D) (g : A -> B) (l : list A) :
  flat_map f (map g l) = flat_map (fun a => f (g a)) l.
Proof.
  induction l as [|a l IH]; [reflexivity|].
  cbn [map flat_map]. rewrite IH. reflexivity.
Qed.

(** Two nested counted loops whose offset is affine in both counters walk an
    interval of offsets from left to right. *)
Lemma flat_map_affine (B base : Z) :
  0 <= B ->
  forall A, 0 <= A ->
    flat_map (fun a => map (fun x => base + a * B + x) (range 0 B)) (range 0 A)
    = map (fun x => base + x) (range 0 (A * B)).
Proof.
  intros HB. apply natlike_ind.
  - rewrite (range_empty 0 0), (range_empty 0 (0 * B)) by lia. reflexivity.
  - intros A HA IH.
    rewrite (range_app 0 A (Z.succ A)) by lia.
    rewrite flat_map_app, IH.
    rewrite (range_cons A), (range_empty (A + 1)) by lia.
    cbn [flat_map]. rewrite app_nil_r.
    rewrite (range_app 0 (A * B) (Z.succ A * B)) by nia.
    rewrite map_app. f_equal.
    replace (Z.succ A * B) with (A * B + B) by lia.
    replace (range (A * B) (A * B + B))
      with (map (fun x => A * B + x) (range 0 B))
      by (rewrite <- range_shift; f_equal; lia).
    rewrite map_map. apply map_ext. intros. lia.
Qed.

Lemma nest_offsets {T : Type} (p : T -> Z) (g : Z -> list T)
      (A B N base : Z) :
  0 <= A -> 0 <= B -> N = A * B ->
  (forall a, map p (g a) = map (fun x => base + a * B + x) (range 0 B)) ->
  map p (flat_map g (range 0 A)) = map (fun x => base + x) (range 0 N).
Proof.
  intros HA HB -> Hg.
  rewrite map_flat_map, (flat_map_ext _ _ Hg).
  apply flat_map_affine; assumption.
Qed.

Lemma whole_blocks_quot (n blk : Z) :
  0 < blk -> 0 <= n -> Z.rem n blk = 0 ->
  n = Z.quot n blk * blk /\ 0 <= Z.quot n blk.
Proof.
  intros Hb Hn Hr. pose proof (Z.quot_rem' n blk) as E.
  rewrite Hr in E. split; [lia|]. apply Z.quot_pos; lia.
Qed.

Lemma blocked_nest_offsets (s : lrn_shape) (blk : Z) :
  0 < blk -> nonneg_shape s -> Z.rem (C s) blk = 0 ->
  map fst
    (flat_map (fun mb =>
     flat_map (fun c =>
     flat_map (fun h =>
     flat_map (fun w =>
       let off := mb * CHW s + c * H s * W s + (h * W s + w) * blk in
       map (fun cc => (off + cc, (mb, c + cc, h, w))) (range 0 blk))
     (range 0 (W s))) (range 0 (H s))) (for_range 0 (C s) blk))
     (range 0 (MB s)))
  = map (fun x => 0 + x) (range 0 (numel s)).
Proof.
  intros Hblk (HMB & HC & HH & HW) Hrem.
  destruct (whole_blocks_quot _ _ Hblk HC Hrem) as [HCq Hq].
  set (q := Z.quot (C s) blk) in *.
  unfold numel, CHW. rewrite HCq.
  apply (nest_offsets _ _ _ (q * (H s * (W s * blk)))); [lia | nia | ring |].
  intros mb. rewrite block_starts_whole, flat_map_map by lia.
  apply (nest_offsets _ _ _ (H s * (W s * blk))); [lia | nia | ring |].
  intros i.
  apply (nest_offsets _ _ _ (W s * blk)); [lia | nia | ring |].
  intros h.
  apply (nest_offsets _ _ _ blk); [lia | lia | ring |].
  intros w. cbv zeta. rewrite map_map. apply map_ext. intros cc.
  cbn [fst]. ring.
Qed.

Lemma nhwc_nest_offsets (s : lrn_shape) :
  nonneg_shape s ->
  map fst
    (flat_map (fun mb =>
     flat_map (fun h =>
     flat_map (fun w =>
     map (fun c =>
       let off := mb * CHW s + h * W s * C s + w * C s + c in
       (off, (mb, c, h, w)))
     (range 0 (C s))) (range 0 (W s))) (range 0 (H s))) (range 0 (MB s)))
  = map (fun x => 0 + x) (range 0 (numel s)).
Proof.
  intros (HMB & HC & HH & HW). unfold numel, CHW.
  apply (nest_offsets _ _ _ (H s * (W s * C s))); [lia | nia | ring |].
  intros mb.
  apply (nest_offsets _ _ _ (W s * C s)); [lia | nia | ring |].
  intros h.
  apply (nest_offsets _ _ _ (C s)); [lia | lia | ring |].
  intros w. cbv zeta. rewrite map_map. apply map_ext. intros c.
  cbn [fst]. ring.
Qed.

Lemma nchw_nest_offsets (s : lrn_shape) :
  nonneg_shape s ->
  map fst
    (flat_map (fun mb =>
     flat_map (fun c =>
     flat_map (fun h =>
     map (fun w =>
       let off := data_off nchw s mb c h w in
       (off, (mb, c, h, w)))
     (range 0 (W s))) (range 0 (H s))) (range 0 (C s))) (range 0 (MB s)))
  = map (fun x => 0 + x) (range 0 (numel s)).
Proof.
  intros (HMB & HC & HH & HW). unfold numel, data_off, CHW.
  apply (nest_offsets _ _ _ (C s * (H s * W s))); [lia | nia | ring |].
  intros mb.
  apply (nest_offsets _ _ _ (H s * W s)); [lia | nia | ring |].
  intros c.
  apply (nest_offsets _ _ _ (W s)); [lia | lia | ring |].
  intros h. cbv zeta. rewrite map_map. apply map_ext. intros w.
  cbn [fst]. ring.
Qed.

(** With whole blocks, every nest writes the offsets [0 .. numel) one after
    the other, in increasing order. *)
Lemma loop_nest_offsets (fmt : memory_format) (s : lrn_shape) :
  fmt <> any -> nonneg_shape s -> whole_blocks fmt s ->
  map fst (loop_nest fmt s) = range 0 (numel s).
Proof.
  intros Hfmt Hs Hwb.
  rewrite <- (map_id (range 0 (numel s))).
  rewrite (map_ext (fun x => x) (fun x => 0 + x)) by (intros; lia).
  destruct fmt; try congruence; unfold loop_nest; cbn [is_blocked].
  - apply blocked_nest_offsets; [cbn; lia | assumption | apply Hwb; reflexivity].
  - apply blocked_nest_offsets; [cbn; lia | assumption | apply Hwb; reflexivity].
  - apply nchw_nest_offsets; assumption.
  - apply nhwc_nest_offsets; assumption.
Qed.

(** ** The calls of the loop nests *)

(** Takes apart the membership of an element in a loop nest. *)
Ltac split_in :=
  repeat match goal with
         | H : In _ (flat_map _ _) |- _ =>
             apply in_flat_map in H; destruct H as [? [? H]]
         | H : In _ (map _ _) |- _ =>
             apply in_map_iff in H; destruct H as [? [? H]]
         | H : In _ (range _ _) |- _ => apply in_range in H
         | H : (_, _) = (_, _) |- _ => inversion H; clear H; subst
         end.

Lemma quot_rem_block (k cc blk : Z) :
  0 <= k -> 0 <= cc < blk ->
  Z.quot (k * blk + cc) blk = k /\ Z.rem (k * blk + cc) blk = cc.
Proof.
  intros Hk Hcc.
  rewrite Z.quot_div_nonneg, Z.rem_mod_nonneg by nia.
  split; [symmetry; apply (Z.div_unique _ _ k cc) | symmetry; apply (Z.mod_unique _ _ k cc)]; lia.
Qed.

(** A call of a blocked nest: block [k], lane [cc]. *)
Lemma in_blocked_nest (fmt : memory_format) (s : lrn_shape) (d mb c h w : Z) :
  is_blocked fmt = true ->
  In (d, (mb, c, h, w)) (loop_nest fmt s) <->
  exists k cc,
    0 <= k /\ k * blksize fmt < C s /\ 0 <= cc < blksize fmt /\
    c = k * blksize fmt + cc /\
    d = mb * CHW s + k * blksize fmt * H s * W s
        + (h * W s + w) * blksize fmt + cc /\
    0 <= mb < MB s /\ 0 <= h < H s /\ 0 <= w < W s.
Proof.
  intros Hb. unfold loop_nest. rewrite Hb.
  assert (Hblk : 0 < blksize fmt) by (destruct fmt; cbn; lia).
  split.
  - intros Hin. split_in.
    match goal with
    | Hc : In _ (for_range 0 _ _) |- _ =>
        apply in_block_starts in Hc; [| assumption];
        destruct Hc as [Hc [k [Hk ->]]]
    end.
    exists k. eexists. repeat split; try eassumption; try lia.
  - intros (k & cc & Hk & HkC & Hcc & -> & -> & Hmb & Hh & Hw).
    apply in_flat_map. exists mb. split; [apply in_range; lia|].
    apply in_flat_map. exists (k * blksize fmt).
    split; [apply in_block_starts; [assumption|]; split; [lia|]; exists k; lia|].
    apply in_flat_map. exists h. split; [apply in_range; lia|].
    apply in_flat_map. exists w. split; [apply in_range; lia|].
    apply in_map_iff. exists cc. split; [reflexivity|]. apply in_range; lia.
Qed.

Lemma in_plain_nest (fmt : memory_format) (s : lrn_shape) (d mb c h w : Z) :
  is_blocked fmt = false ->
  In (d, (mb, c, h, w)) (loop_nest fmt s) <->
  (d = data_off fmt s mb c h w /\ valid_coord s mb c h w).
Proof.
  intros Hb. unfold loop_nest, valid_coord. rewrite Hb.
  destruct fmt; try discriminate Hb.
  all: split;
    [ intros Hin; split_in; cbn [data_off]; repeat split; lia
    | intros (-> & Hmb & Hc & Hh & Hw) ].
  - apply in_flat_map. exists mb. split; [apply in_range; lia|].
    apply in_flat_map. exists c. split; [apply in_range; lia|].
    apply in_flat_map. exists h. split; [apply in_range; lia|].
    apply in_map_iff. exists w. split; [reflexivity|]. apply in_range; lia.
  - apply in_flat_map. exists mb. split; [apply in_range; lia|].
    apply in_flat_map. exists h. split; [apply in_range; lia|].
    apply in_flat_map. exists w. split; [apply in_range; lia|].
    apply in_map_iff. exists c. split; [reflexivity|]. apply in_range; lia.
  - apply in_flat_map. exists mb. split; [apply in_range; lia|].
    apply in_flat_map. exists c. split; [apply in_range; lia|].
    apply in_flat_map. exists h. split; [apply in_range; lia|].
    apply in_map_iff. exists w. split; [reflexivity|]. apply in_range; lia.
Qed.

(** The offset a block and a lane give is the offset of the layout. *)
Lemma blocked_off_data_off (fmt : memory_format) (s : lrn_shape)
      (mb k cc h w : Z) :
  is_blocked fmt = true -> 0 <= k -> 0 <= cc < blksize fmt ->
  mb * CHW s + k * blksize fmt * H s * W s + (h * W s + w) * blksize fmt + cc
  = data_off fmt s mb (k * blksize fmt + cc) h w.
Proof.
  intros Hb Hk Hcc.
  destruct (quot_rem_block k cc (blksize fmt) Hk Hcc) as [Hq Hr].
  destruct fmt; try discriminate Hb; unfold data_off; rewrite Hq, Hr; ring.
Qed.

(** Every call gets the pointer to the element of its own coordinate. *)
Lemma loop_nest_call (fmt : memory_format) (s : lrn_shape) (d mb c h w : Z) :
  In (d, (mb, c, h, w)) (loop_nest fmt s) -> d = data_off fmt s mb c h w.
Proof.
  destruct (is_blocked fmt) eqn:Hb.
  - rewrite in_blocked_nest by assumption.
    intros (k & cc & Hk & _ & Hcc & -> & -> & _).
    apply blocked_off_data_off; assumption.
  - rewrite in_plain_nest by assumption. tauto.
Qed.

(** Every valid coordinate gets a call. *)
Lemma loop_nest_complete (fmt : memory_format) (s : lrn_shape) (mb c h w : Z) :
  valid_coord s mb c h w ->
  In (data_off fmt s mb c h w, (mb, c, h, w)) (loop_nest fmt s).
Proof.
  intros Hv. destruct (is_blocked fmt) eqn:Hb.
  - assert (Hblk : 0 < blksize fmt) by (destruct fmt; cbn; lia).
    destruct Hv as (Hmb & Hc & Hh & Hw).
    pose proof (Z.div_mod c (blksize fmt) ltac:(lia)) as Hdm.
    pose proof (Z.mod_pos_bound c (blksize fmt) Hblk) as Hm.
    assert (Hk : 0 <= c / blksize fmt) by (apply Z.div_pos; lia).
    apply in_blocked_nest; [assumption|].
    exists (c / blksize fmt), (c mod blksize fmt).
    repeat split; try lia.
    replace c with (c / blksize fmt * blksize fmt + c mod blksize fmt) at 1
      by lia.
    symmetry. apply blocked_off_data_off; assumption.
  - apply in_plain_nest; [assumption|]. split; [reflexivity | assumption].
Qed.

(** With whole blocks the calls are those of the valid coordinates. *)
Lemma loop_nest_valid (fmt : memory_format) (s : lrn_shape) (d mb c h w : Z) :
  nonneg_shape s -> whole_blocks fmt s ->
  In (d, (mb, c, h, w)) (loop_nest fmt s) -> valid_coord s mb c h w.
Proof.
  intros (HMB & HC & HH & HW) Hwb.
  destruct (is_blocked fmt) eqn:Hb.
  - assert (Hblk : 0 < blksize fmt) by (destruct fmt; cbn; lia).
    destruct (whole_blocks_quot _ _ Hblk HC (Hwb Hb)) as [HCq Hq].
    rewrite in_blocked_nest by assumption.
    intros (k & cc & Hk & HkC & Hcc & -> & -> & Hmb & Hh & Hw).
    set (q := Z.quot (C s) (blksize fmt)) in *.
    assert (Hkq : k + 1 <= q) by nia.
    assert (Hle : (k + 1) * blksize fmt <= q * blksize fmt)
      by (apply Z.mul_le_mono_nonneg_r; lia).
    unfold valid_coord. repeat split; lia.
  - rewrite in_plain_nest by assumption. tauto.
Qed.

(** ** Layouts *)

Lemma NoDup_map_fst_unique {A B : Type} (l : list (A * B)) (a : A) (x y : B) :
  NoDup (map fst l) -> In (a, x) l -> In (a, y) l -> x = y.
Proof.
  induction l as [|[a' z] l IH]; cbn [map fst]; intros Hnd Hx Hy.
  - destruct Hx.
  - inversion Hnd as [|? ? Hnotin Hnd']; subst.
    destruct Hx as [Hx|Hx]; destruct Hy as [Hy|Hy].
    + congruence.
    + inversion Hx; subst. exfalso. apply Hnotin.
      apply (in_map fst) in Hy. exact Hy.
    + inversion Hy; subst. exfalso. apply Hnotin.
      apply (in_map fst) in Hx. exact Hx.
    + apply IH; assumption.
Qed.

Lemma NoDup_loop_nest_offsets (fmt : memory_format) (s : lrn_shape) :
  fmt <> any -> nonneg_shape s -> whole_blocks fmt s ->
  NoDup (map fst (loop_nest fmt s)).
Proof.
  intros Hfmt Hs Hwb. rewrite loop_nest_offsets by assumption.
  apply NoDup_range.
Qed.

Lemma data_off_layout (fmt : memory_format) (s : lrn_shape) :
  fmt <> any -> nonneg_shape s -> whole_blocks fmt s ->
  bijective_layout (data_off fmt s) s.
Proof.
  intros Hfmt Hs Hwb.
  pose proof (loop_nest_offsets fmt s Hfmt Hs Hwb) as Hoffs.
  pose proof (NoDup_loop_nest_offsets fmt s Hfmt Hs Hwb) as Hnd.
  split; [|split].
  - intros mb c h w Hv. apply in_range. rewrite <- Hoffs.
    exact (in_map fst _ _ (loop_nest_complete fmt s mb c h w Hv)).
  - intros mb c h w mb' c' h' w' Hv Hv' Heq.
    pose proof (loop_nest_complete fmt s _ _ _ _ Hv) as Hin.
    pose proof (loop_nest_complete fmt s _ _ _ _ Hv') as Hin'.
    rewrite Heq in Hin.
    exact (NoDup_map_fst_unique _ _ _ _ Hnd Hin Hin').
  - intros o Ho. apply in_range in Ho. rewrite <- Hoffs in Ho.
    apply in_map_iff in Ho. destruct Ho as [[d [[[mb c] h] w]] [Hd Hin]].
    cbn [fst] in Hd. subst d.
    exists mb, c, h, w. split.
    + exact (loop_nest_valid _ _ _ _ _ _ _ Hs Hwb Hin).
    + symmetry. exact (loop_nest_call _ _ _ _ _ _ _ Hin).
Qed.

(** C8, as amended.  Each of the four layout offset functions is a
    bijection from the valid coordinates [0,MB)x[0,C)x[0,H)x[0,W) onto
    [0, MB*C*H*W); for the two blocked formats this holds when the number
    of channels is a multiple of the block size. *)
Theorem data_off_bijective (fmt : memory_format) (s : lrn_shape) :
  fmt <> any -> nonneg_shape s -> whole_blocks fmt s ->
  bijective_layout (data_off fmt s) s.
Proof. exact (data_off_layout fmt s). Qed.

Lemma data_off_bijective_witness :
  bijective_layout (data_off nChw8c (mk_shape 2 8 2 2)) (mk_shape 2 8 2 2).
Proof.
  apply data_off_bijective.
  - discriminate.
  - unfold nonneg_shape; cbn; lia.
  - intros _. reflexivity.
Defined.

(** C8, as stated, fails: with 4 channels and a 1x2 plane the blocked
    format puts the element (0,0,0,1) at offset 8 of a tensor of 8
    elements. *)
Lemma blocked_layout_not_bijective :
  data_off nChw8c (mk_shape 1 4 1 2) 0 0 0 1 = 8 /\
  numel (mk_shape 1 4 1 2) = 8 /\
  ~ bijective_layout (data_off nChw8c (mk_shape 1 4 1 2)) (mk_shape 1 4 1 2).
Proof.
  split; [reflexivity|]. split; [reflexivity|].
  intros [Hinto _].
  assert (Hv : valid_coord (mk_shape 1 4 1 2) 0 0 0 1)
    by (unfold valid_coord; cbn; lia).
  specialize (Hinto 0 0 0 1 Hv). vm_compute in Hinto.
  destruct Hinto as [_ Hlt]. discriminate Hlt.
Qed.

(** C10, as amended.  The offsets the loop nests compute inline are those
    of [data_off]: in the blocked nests for a block start [c] (a multiple of
    the block size, from 0 up) and a lane [cc], in the nhwc nest for every
    coordinate.  So every call gets the pointer to the element of its own
    coordinate, which is also where the forward kernel puts the workspace
    element, and every valid coordinate gets a call.  When the number of
    channels is a multiple of the block size (blocked formats), every
    element of the output buffer is written exactly once. *)
Theorem loop_nest_writes (fmt : memory_format) (s : lrn_shape) :
  (is_blocked fmt = true ->
   forall mb c cc h w,
     0 <= c -> Z.rem c (blksize fmt) = 0 -> 0 <= cc < blksize fmt ->
     mb * CHW s + c * H s * W s + (h * W s + w) * blksize fmt + cc
     = data_off fmt s mb (c + cc) h w) /\
  (forall mb c h w,
     mb * CHW s + h * W s * C s + w * C s + c = data_off nhwc s mb c h w) /\
  (forall d mb c h w,
     In (d, (mb, c, h, w)) (loop_nest fmt s) -> d = data_off fmt s mb c h w) /\
  (forall mb c h w,
     valid_coord s mb c h w ->
     In (data_off fmt s mb c h w, (mb, c, h, w)) (loop_nest fmt s)) /\
  (fmt <> any -> nonneg_shape s -> whole_blocks fmt s ->
   forall o, 0 <= o < numel s ->
             count_occ Z.eq_dec (map fst (loop_nest fmt s)) o = 1%nat).
Proof.
  split; [|split; [|split; [|split]]].
  - intros Hb mb c cc h w Hc Hrem Hcc.
    assert (Hblk : 0 < blksize fmt) by (destruct fmt; cbn; lia).
    destruct (whole_blocks_quot _ _ Hblk Hc Hrem) as [Hcq Hq].
    rewrite Hcq at 2.
    rewrite <- blocked_off_data_off by assumption.
    rewrite <- Hcq. reflexivity.
  - intros. reflexivity.
  - apply loop_nest_call.
  - apply loop_nest_complete.
  - intros Hfmt Hs Hwb o Ho.
    apply NoDup_count_occ'.
    + apply NoDup_loop_nest_offsets; assumption.
    + rewrite loop_nest_offsets by assumption. apply in_range. exact Ho.
Qed.

Lemma loop_nest_writes_witness :
  count_occ Z.eq_dec (map fst (loop_nest nChw8c (mk_shape 2 8 1 1))) 9 = 1%nat.
Proof.
  apply (loop_nest_writes nChw8c (mk_shape 2 8 1 1)).
  - discriminate.
  - unfold nonneg_shape; cbn; lia.
  - intros _. reflexivity.
  - cbn; lia.
Defined.

(** C10, as stated, fails: with 4 channels the nChw8c nest still runs 8
    lanes, and for a batch of 2 the call for (0,4,0,0) and the call for
    (1,0,0,0) both write offset 4. *)
Lemma blocked_nest_writes_twice :
  In (4, (0, 4, 0, 0)) (loop_nest nChw8c (mk_shape 2 4 1 1)) /\
  In (4, (1, 0, 0, 0)) (loop_nest nChw8c (mk_shape 2 4 1 1)) /\
  ~ (forall o, 0 <= o < numel (mk_shape 2 4 1 1) ->
               count_occ Z.eq_dec
                         (map fst (loop_nest nChw8c (mk_shape 2 4 1 1))) o
               = 1%nat).
Proof.
  split; [vm_compute; tauto|]. split; [vm_compute; tauto|].
  intros Hall. specialize (Hall 4 ltac:(cbn; lia)).
  vm_compute in Hall. discriminate Hall.
Qed.

(** ** Bounds of the accesses *)

Section Bounds.
Context {F : Type}.
Variable fmt : memory_format.
Variable s : lrn_shape.
Variable desc : lrn_desc F.
Hypothesis Hfmt : fmt <> any.
Hypothesis Hs : nonneg_shape s.
Hypothesis Hwb : whole_blocks fmt s.

Lemma data_off_in_bounds (mb c h w : Z) :
  valid_coord s mb c h w -> 0 <= data_off fmt s mb c h w < numel s.
Proof. apply (data_off_layout fmt s Hfmt Hs Hwb). Qed.

Lemma fwd_window_in_bounds (mb oc oh ow o : Z) :
  valid_coord s mb oc oh ow ->
  In o (fwd_window fmt s desc mb oc oh ow) -> 0 <= o < numel s.
Proof.
  intros (Hmb & Hc & Hh & Hw) Hin. unfold fwd_window in Hin.
  destruct (across_channels desc); split_in; subst o;
    apply data_off_in_bounds; unfold valid_coord; lia.
Qed.

Lemma bwd_window_in_bounds (mb oc oh ow o : Z) :
  valid_coord s mb oc oh ow ->
  In o (bwd_window fmt s desc mb oc oh ow) -> 0 <= o < numel s.
Proof.
  intros (Hmb & Hc & Hh & Hw) Hin. unfold bwd_window, bwd_channels in Hin.
  split_in. subst o. apply data_off_in_bounds; unfold valid_coord; lia.
Qed.

Lemma accesses_in_bounds (d mb c h w o : Z) :
  In (d, (mb, c, h, w)) (loop_nest fmt s) ->
  In o (fwd_accesses fmt s desc d mb c h w)
  \/ In o (bwd_accesses fmt s desc d mb c h w) ->
  0 <= o < numel s.
Proof.
  intros Hcall Ho.
  pose proof (loop_nest_valid _ _ _ _ _ _ _ Hs Hwb Hcall) as Hv.
  pose proof (loop_nest_call _ _ _ _ _ _ _ Hcall) as Hd.
  pose proof (data_off_in_bounds _ _ _ _ Hv) as Hoff.
  unfold fwd_accesses, bwd_accesses in Ho. cbn [In] in Ho.
  destruct Ho as [[Ho | [Ho | Ho]] | [Ho | [Ho | Ho]]]; try lia.
  - exact (fwd_window_in_bounds _ _ _ _ _ Hv Ho).
  - exact (bwd_window_in_bounds _ _ _ _ _ Hv Ho).
Qed.
End Bounds.

(** A blocked nest over a partial last block calls the kernel for a channel
    that does not exist, with a pointer past the end of the buffer. *)
Lemma partial_block_overrun (fmt : memory_format) (s : lrn_shape) :
  is_blocked fmt = true ->
  0 < MB s -> 0 < C s -> 0 < H s -> 0 < W s ->
  Z.rem (C s) (blksize fmt) <> 0 ->
  exists d mb c h w,
    In (d, (mb, c, h, w)) (loop_nest fmt s) /\ C s <= c /\ numel s <= d.
Proof.
  intros Hb HMB HC HH HW Hrem.
  assert (Hblk : 0 < blksize fmt) by (destruct fmt; cbn; lia).
  rewrite Z.rem_mod_nonneg in Hrem by lia.
  pose proof (Z.div_mod (C s) (blksize fmt) ltac:(lia)) as Hdm.
  pose proof (Z.mod_pos_bound (C s) (blksize fmt) Hblk) as Hm.
  assert (Hk : 0 <= C s / blksize fmt) by (apply Z.div_pos; lia).
  set (k := C s / blksize fmt) in *. set (blk := blksize fmt) in *.
  exists ((MB s - 1) * CHW s + k * blk * H s * W s
          + ((H s - 1) * W s + (W s - 1)) * blk + (blk - 1)),
         (MB s - 1), (k * blk + (blk - 1)), (H s - 1), (W s - 1).
  split; [|split].
  - apply in_blocked_nest; [assumption|].
    exists k, (blk - 1). fold blk. repeat split; lia.
  - lia.
  - unfold numel, CHW.
    assert (Hle : (C s + 1) * (H s * W s) <= (k * blk + blk) * (H s * W s))
      by (apply Z.mul_le_mono_nonneg_r; nia).
    nia.
Qed.

(** C9.  Under a blocked format the nests run whole blocks of channels.
    When the number of channels is a multiple of the block size, the kernel
    is called for the valid coordinates and no others, and every index at
    which a call reads or writes a buffer lies in [0, MB*C*H*W).  When it is
    not, the nest calls the kernel for a channel [c >= C], with a pointer
    past the end of the buffer. *)
Theorem blocked_nest_in_bounds {F : Type} (fmt : memory_format)
        (s : lrn_shape) (desc : lrn_desc F) :
  is_blocked fmt = true -> nonneg_shape s ->
  (Z.rem (C s) (blksize fmt) = 0 ->
   (forall mb c h w,
       In (mb, c, h, w) (map snd (loop_nest fmt s)) <-> valid_coord s mb c h w)
   /\
   (forall d mb c h w o,
       In (d, (mb, c, h, w)) (loop_nest fmt s) ->
       In o (fwd_accesses fmt s desc d mb c h w)
       \/ In o (bwd_accesses fmt s desc d mb c h w) ->
       0 <= o < numel s))
  /\
  (0 < MB s -> 0 < C s -> 0 < H s -> 0 < W s ->
   Z.rem (C s) (blksize fmt) <> 0 ->
   exists d mb c h w,
     In (d, (mb, c, h, w)) (loop_nest fmt s) /\ C s <= c /\ numel s <= d).
Proof.
  intros Hb Hs. split.
  - intros Hrem.
    assert (Hfmt : fmt <> any) by (destruct fmt; discriminate).
    assert (Hwb : whole_blocks fmt s) by (intros _; exact Hrem).
    split.
    + intros mb c h w. split.
      * intros Hin. apply in_map_iff in Hin.
        destruct Hin as [[d x] [Hx Hin]]. cbn [snd] in Hx. subst x.
        exact (loop_nest_valid _ _ _ _ _ _ _ Hs Hwb Hin).
      * intros Hv.
        exact (in_map snd _ _ (loop_nest_complete fmt s mb c h w Hv)).
    + intros d mb c h w o.
      apply accesses_in_bounds; assumption.
  - apply partial_block_overrun; assumption.
Qed.

Lemma blocked_nest_in_bounds_witness :
  (forall mb c h w,
      In (mb, c, h, w) (map snd (loop_nest nChw16c (mk_shape 2 32 3 3)))
      <-> valid_coord (mk_shape 2 32 3 3) mb c h w)
  /\
  exists d mb c h w,
    In (d, (mb, c, h, w)) (loop_nest nChw8c (mk_shape 1 4 1 1))
    /\ C (mk_shape 1 4 1 1) <= c /\ numel (mk_shape 1 4 1 1) <= d.
Proof.
  split.
  - apply (blocked_nest_in_bounds nChw16c (mk_shape 2 32 3 3)
             {| lrn_alpha := 1%R; lrn_beta := 1%R; lrn_k := 1%R;
                local_size := 5; across_channels := true |}).
    + reflexivity.
    + unfold nonneg_shape; cbn; lia.
    + reflexivity.
  - apply (blocked_nest_in_bounds nChw8c (mk_shape 1 4 1 1)
             {| lrn_alpha := 1%R; lrn_beta := 1%R; lrn_k := 1%R;
                local_size := 5; across_channels := true |}).
    + reflexivity.
    + unfold nonneg_shape; cbn; lia.
    + cbn; lia.
    + cbn; lia.
    + cbn; lia.
    + cbn; lia.
    + cbn. discriminate.
Defined.

Lemma flat_map_ext_in {A B : Type} (f g : A -> list B) (l : list A) :
  (forall a, In a l -> f a = g a) -> flat_map f l = flat_map g l.
Proof.
  induction l as [|a l IH]; intros Hfg; [reflexivity|].
  cbn [flat_map]. rewrite (Hfg a (or_introl eq_refl)), IH; [reflexivity|].
  intros b Hb. apply Hfg. right. exact Hb.
Qed.

(** ** The forward kernel against the specification *)

Section ForwardSpec.
Context {F : Type} {ops : FloatOps F}.
Variable fmt : memory_format.
Variable s : lrn_shape.
Variable desc : lrn_desc F.

Lemma sum_sq_values (src : buffer F) (offs : list Z) :
  sum_sq src offs = sum_squares (map src offs).
Proof.
  unfold sum_sq, sum_squares. generalize (f_of_int 0).
  induction offs as [|o offs IH]; intros acc; [reflexivity|].
  cbn [map fold_left]. apply IH.
Qed.

Lemma half_size_spec : 1 <= local_size desc -> half_size desc = spec_half desc.
Proof.
  intros Hsz. unfold half_size, spec_half.
  apply Z.quot_div_nonneg; lia.
Qed.

Lemma fwd_window_values (src : buffer F) (mb oc oh ow : Z) :
  1 <= local_size desc ->
  map src (fwd_window fmt s desc mb oc oh ow)
  = spec_neighborhood s desc (view fmt s src) mb oc oh ow.
Proof.
  intros Hsz. unfold fwd_window, spec_neighborhood.
  rewrite !clamped_range, <- half_size_spec by assumption.
  destruct (across_channels desc).
  - rewrite map_map. reflexivity.
  - rewrite map_flat_map. apply flat_map_ext. intros h.
    rewrite map_map. reflexivity.
Qed.

Lemma summands_spec : summands desc = spec_summands desc.
Proof.
  unfold summands, spec_summands.
  destruct (across_channels desc); [reflexivity|].
  rewrite Z.pow_2_r. reflexivity.
Qed.

Lemma fwd_omega_spec (src : buffer F) (mb oc oh ow : Z) :
  1 <= local_size desc ->
  fwd_omega fmt s desc src mb oc oh ow
  = spec_omega s desc (view fmt s src) mb oc oh ow.
Proof.
  intros Hsz. unfold fwd_omega, spec_omega.
  rewrite sum_sq_values, fwd_window_values, summands_spec by assumption.
  reflexivity.
Qed.

Lemma fwd_value_spec (src : buffer F) (mb oc oh ow : Z) :
  1 <= local_size desc ->
  fwd_value fmt s desc src mb oc oh ow
  = spec_forward s desc (view fmt s src) mb oc oh ow.
Proof.
  intros Hsz. unfold fwd_value, spec_forward.
  rewrite fwd_omega_spec by assumption. reflexivity.
Qed.

Lemma upd_same (b : buffer F) (o : Z) (v : F) : upd b o v o = v.
Proof. unfold upd. rewrite Z.eqb_refl. reflexivity. Qed.

Lemma upd_other (b : buffer F) (o o' : Z) (v : F) :
  o' <> o -> upd b o v o' = b o'.
Proof.
  intros Hne. unfold upd.
  destruct (Z.eqb_spec o' o); [contradiction | reflexivity].
Qed.

Lemma ker_fwd_dst (src : buffer F) (st : fwd_state F) (d mb oc oh ow : Z) :
  dst (ker_fwd fmt s desc src st d mb oc oh ow)
  = upd (dst st) d (fwd_value fmt s desc src mb oc oh ow).
Proof. reflexivity. Qed.

Lemma ker_fwd_ws (src : buffer F) (st : fwd_state F) (d mb oc oh ow : Z) :
  ws (ker_fwd fmt s desc src st d mb oc oh ow)
  = option_map (fun w => upd w (data_off fmt s mb oc oh ow)
                             (fwd_omega fmt s desc src mb oc oh ow))
               (ws st).
Proof. unfold ker_fwd. cbn [ws]. destruct (ws st); reflexivity. Qed.

(** The spec value depends on the tensor through the valid coordinates
    only. *)
Lemma in_clamped (center half n i : Z) :
  In i (clamped center half n) -> 0 <= i < n.
Proof.
  unfold clamped. intros Hin. apply filter_In in Hin.
  destruct Hin as [Hin _]. apply in_range in Hin. exact Hin.
Qed.

Lemma spec_neighborhood_ext (x y : tensor F) (mb oc oh ow : Z) :
  valid_coord s mb oc oh ow ->
  (forall mb c h w, valid_coord s mb c h w -> x mb c h w = y mb c h w) ->
  spec_neighborhood s desc x mb oc oh ow
  = spec_neighborhood s desc y mb oc oh ow.
Proof.
  intros (Hmb & Hc & Hh & Hw) Hxy. unfold spec_neighborhood.
  destruct (across_channels desc).
  - apply map_ext_in. intros c Hin. apply in_clamped in Hin.
    apply Hxy. unfold valid_coord. lia.
  - apply flat_map_ext_in. intros h Hinh. apply in_clamped in Hinh.
    apply map_ext_in. intros w Hinw. apply in_clamped in Hinw.
    apply Hxy. unfold valid_coord. lia.
Qed.

Lemma spec_forward_ext (x y : tensor F) (mb oc oh ow : Z) :
  valid_coord s mb oc oh ow ->
  (forall mb c h w, valid_coord s mb c h w -> x mb c h w = y mb c h w) ->
  spec_forward s desc x mb oc oh ow = spec_forward s desc y mb oc oh ow.
Proof.
  intros Hv Hxy. unfold spec_forward, spec_omega.
  rewrite (spec_neighborhood_ext x y) by assumption.
  rewrite (Hxy _ _ _ _ Hv). reflexivity.
Qed.
End ForwardSpec.

(** ** Real arithmetic: the power helper *)

Lemma f_eqb_R (x y : R) : @f_eqb R R_ops x y = true <-> x = y.
Proof.
  cbn [f_eqb R_ops]. destruct (Req_dec_T x y); split; intros; congruence.
Qed.

Lemma fast_negative_powf_fast (x : R) :
  @fast_negative_powf R R_ops x (3 / 4)%R
  = (1 / sqrt x * sqrt (1 / sqrt x))%R.
Proof.
  unfold fast_negative_powf.
  destruct (f_eqb (3 / 4)%R f_three_quarters) eqn:E; [reflexivity|].
  assert (E' : @f_eqb R R_ops (3 / 4)%R (3 / 4)%R = true)
    by (apply f_eqb_R; reflexivity).
  cbn [f_three_quarters R_ops] in E. congruence.
Qed.

Lemma fast_negative_powf_general (x beta : R) :
  beta <> (3 / 4)%R ->
  @fast_negative_powf R R_ops x beta = (1 / Rpower x beta)%R.
Proof.
  intros Hb. unfold fast_negative_powf.
  destruct (f_eqb beta f_three_quarters) eqn:E; [|reflexivity].
  apply f_eqb_R in E. contradiction.
Qed.

Lemma fast_path_power (x : R) :
  (0 < x)%R -> (1 / sqrt x * sqrt (1 / sqrt x))%R = Rpower x (- (3 / 4)).
Proof.
  intros Hx.
  replace (1 / sqrt x)%R with (Rpower x (- / 2)).
  2:{ rewrite Rpower_Ropp, Rpower_sqrt by assumption.
      unfold Rdiv. rewrite Rmult_1_l. reflexivity. }
  rewrite <- (Rpower_sqrt (Rpower x (- / 2))) by apply exp_pos.
  rewrite Rpower_mult, <- Rpower_plus.
  f_equal. lra.
Qed.

Lemma fast_negative_powf_Rpower (x beta : R) :
  (0 < x)%R -> @fast_negative_powf R R_ops x beta = Rpower x (- beta).
Proof.
  intros Hx. destruct (Req_dec_T beta (3 / 4)%R) as [-> | Hb].
  - rewrite fast_negative_powf_fast. apply fast_path_power. exact Hx.
  - rewrite fast_negative_powf_general by assumption.
    rewrite Rpower_Ropp. unfold Rdiv. apply Rmult_1_l.
Qed.

(** C5.  For every [x > 0] the helper computes [x^(-beta)]: when [beta] is
    0.75 it returns [y * sqrt y] with [y = 1 / sqrt x], which equals
    [x^(-0.75)] and so the result of the general path; otherwise it returns
    [1 / x^beta].  (Real arithmetic: the two paths agree exactly, in floating
    point up to rounding.) *)
Theorem fast_negative_powf_correct (x beta : R) :
  (0 < x)%R ->
  @fast_negative_powf R R_ops x beta = Rpower x (- beta) /\
  (beta = (3 / 4)%R ->
   @fast_negative_powf R R_ops x beta = (1 / sqrt x * sqrt (1 / sqrt x))%R /\
   (1 / sqrt x * sqrt (1 / sqrt x))%R = (1 / Rpower x beta)%R) /\
  (beta <> (3 / 4)%R ->
   @fast_negative_powf R R_ops x beta = (1 / Rpower x beta)%R).
Proof.
  intros Hx. split; [|split].
  - apply fast_negative_powf_Rpower. exact Hx.
  - intros ->. split; [apply fast_negative_powf_fast|].
    rewrite fast_path_power by assumption.
    rewrite Rpower_Ropp. unfold Rdiv. rewrite Rmult_1_l. reflexivity.
  - apply fast_negative_powf_general.
Qed.

Lemma fast_negative_powf_correct_witness :
  @fast_negative_powf R R_ops 2%R (3 / 4)%R = Rpower 2 (- (3 / 4)).
Proof.
  apply (fast_negative_powf_correct 2%R (3 / 4)%R). lra.
Defined.

(** ** Real arithmetic: the forward kernel *)

Lemma sum_squares_acc_nonneg (vs : list R) :
  forall acc : R, (0 <= acc)%R ->
    (0 <= fold_left (fun acc v => f_add acc (f_mul v v)) vs acc)%R.
Proof.
  induction vs as [|v vs IH]; intros acc Hacc; [exact Hacc|].
  cbn [fold_left]. apply IH. cbn [f_add f_mul R_ops]. nra.
Qed.

Lemma sum_squares_nonneg (vs : list R) : (0 <= sum_squares vs)%R.
Proof.
  unfold sum_squares. apply sum_squares_acc_nonneg.
  cbn [f_of_int R_ops]. lra.
Qed.

Lemma spec_omega_nonneg (s : lrn_shape) (desc : lrn_desc R) (x : tensor R)
      (mb oc oh ow : Z) :
  (0 <= lrn_k desc)%R -> (0 <= lrn_alpha desc)%R -> 1 <= local_size desc ->
  (0 <= spec_omega s desc x mb oc oh ow)%R.
Proof.
  intros Hk Ha Hsz. unfold spec_omega. cbn [f_add f_div f_mul f_of_int R_ops].
  pose proof (sum_squares_nonneg (spec_neighborhood s desc x mb oc oh ow)) as HS.
  assert (Hn : (0 < IZR (spec_summands desc))%R).
  { apply IZR_lt. unfold spec_summands.
    destruct (across_channels desc); [lia | nia]. }
  assert (Hq : (0 <= lrn_alpha desc
                     * sum_squares (spec_neighborhood s desc x mb oc oh ow)
                     / IZR (spec_summands desc))%R).
  { apply Rmult_le_pos; [nra|]. left. apply Rinv_0_lt_compat. exact Hn. }
  lra.
Qed.

(** C2.  For [k >= 0], [alpha >= 0] and [local_size >= 1] (odd or not) the
    forward kernel stores [src * omega^(-beta)] at the element it is given,
    where [omega = k + alpha * S / summands], [S] is the sum of the squares
    of [src] over the window clamped to the tensor (channels in
    across-channels mode, rows and columns in within-channel mode) and
    [summands] is [local_size], respectively [local_size^2], whatever the
    number of terms of [S].  The power is the one of the helper, which is
    [omega^(-beta)] as soon as [omega] is not zero. *)
Theorem forward_kernel_value (fmt : memory_format) (s : lrn_shape)
        (desc : lrn_desc R) (src : buffer R) (st : fwd_state R)
        (d mb oc oh ow : Z) :
  (0 <= lrn_k desc)%R -> (0 <= lrn_alpha desc)%R -> 1 <= local_size desc ->
  let x := view fmt s src in
  let S := sum_squares (spec_neighborhood s desc x mb oc oh ow) in
  let omega :=
    (lrn_k desc + lrn_alpha desc * S / IZR (spec_summands desc))%R in
  let out := dst (ker_fwd fmt s desc src st d mb oc oh ow) d in
  spec_summands desc
  = (if across_channels desc then local_size desc else local_size desc ^ 2) /\
  out = (x mb oc oh ow * fast_negative_powf omega (lrn_beta desc))%R /\
  (0 <= omega)%R /\
  (omega <> 0%R -> out = (x mb oc oh ow * Rpower omega (- lrn_beta desc))%R).
Proof.
  intros Hk Ha Hsz x S omega out.
  assert (Hout : out = (x mb oc oh ow
                        * fast_negative_powf omega (lrn_beta desc))%R).
  { subst out. rewrite ker_fwd_dst, upd_same, fwd_value_spec by assumption.
    reflexivity. }
  assert (Hom : (0 <= omega)%R)
    by (apply (spec_omega_nonneg s desc x mb oc oh ow); assumption).
  split; [reflexivity|]. split; [exact Hout|]. split; [exact Hom|].
  intros Hne. rewrite Hout, fast_negative_powf_Rpower by lra. reflexivity.
Qed.

Lemma forward_kernel_value_witness :
  dst (ker_fwd nchw (mk_shape 1 4 1 1)
               {| lrn_alpha := 1%R; lrn_beta := (3 / 4)%R; lrn_k := 1%R;
                  local_size := 5; across_channels := true |}
               (fun _ => 1%R) {| dst := fun _ => 0%R; ws := None |}
               0 0 0 0 0) 0
  = (1 * fast_negative_powf
           (1 + 1 * sum_squares
                      (spec_neighborhood
                         (mk_shape 1 4 1 1)
                         {| lrn_alpha := 1%R; lrn_beta := (3 / 4)%R;
                            lrn_k := 1%R; local_size := 5;
                            across_channels := true |}
                         (fun _ _ _ _ => 1%R) 0 0 0 0) / 5)
           (3 / 4))%R.
Proof.
  apply (forward_kernel_value nchw (mk_shape 1 4 1 1)
           {| lrn_alpha := 1%R; lrn_beta := (3 / 4)%R; lrn_k := 1%R;
              local_size := 5; across_channels := true |}
           (fun _ => 1%R) {| dst := fun _ => 0%R; ws := None |} 0 0 0 0 0).
  - cbn. lra.
  - cbn. lra.
  - cbn. lia.
Defined.

Lemma range_single (i : Z) : range i (i + 1) = [i].
Proof. rewrite range_cons, range_empty by lia. reflexivity. Qed.

Lemma fwd_window_single {F : Type} (fmt : memory_format) (s : lrn_shape)
      (desc : lrn_desc F) (mb oc oh ow : Z) :
  local_size desc = 1 -> valid_coord s mb oc oh ow ->
  fwd_window fmt s desc mb oc oh ow = [data_off fmt s mb oc oh ow].
Proof.
  intros Hsz (Hmb & Hc & Hh & Hw). unfold fwd_window, half_size.
  rewrite Hsz. change (Z.quot (1 - 1) 2) with 0.
  destruct (across_channels desc).
  - replace (Z.max (oc - 0 + 0) 0) with oc by lia.
    replace (Z.min (oc + 0 + 1) (C s)) with (oc + 1) by lia.
    rewrite range_single. reflexivity.
  - replace (Z.max (oh - 0 + 0) 0) with oh by lia.
    replace (Z.min (oh + 0 + 1) (H s)) with (oh + 1) by lia.
    replace (Z.max (ow - 0 + 0) 0) with ow by lia.
    replace (Z.min (ow + 0 + 1) (W s)) with (ow + 1) by lia.
    rewrite !range_single. reflexivity.
Qed.

Lemma fwd_value_single (fmt : memory_format) (s : lrn_shape)
      (desc : lrn_desc R) (src : buffer R) (mb oc oh ow : Z) :
  local_size desc = 1 -> valid_coord s mb oc oh ow ->
  let v := src (data_off fmt s mb oc oh ow) in
  fwd_value fmt s desc src mb oc oh ow
  = (v * fast_negative_powf (lrn_k desc + lrn_alpha desc * (v * v))
                            (lrn_beta desc))%R.
Proof.
  intros Hsz Hv v. unfold fwd_value, fwd_omega.
  rewrite fwd_window_single by assumption.
  assert (Hn : summands desc = 1)
    by (unfold summands; rewrite Hsz; destruct (across_channels desc);
        reflexivity).
  rewrite Hn. unfold sum_sq. cbn [fold_left f_add f_mul f_div f_of_int R_ops].
  fold v. f_equal. f_equal. field.
Qed.

(** C7.  With [local_size = 1] the forward kernel is the elementwise map
    [dst = src * (k + alpha * src^2)^(-beta)] in both modes: the value
    stored for a coordinate depends on [src] at that coordinate only. *)
Theorem forward_degenerate_window (fmt : memory_format) (s : lrn_shape)
        (desc : lrn_desc R) (src : buffer R) (st : fwd_state R)
        (d mb oc oh ow : Z) :
  local_size desc = 1 -> valid_coord s mb oc oh ow ->
  let v := src (data_off fmt s mb oc oh ow) in
  let omega := (lrn_k desc + lrn_alpha desc * (v * v))%R in
  let out := dst (ker_fwd fmt s desc src st d mb oc oh ow) d in
  out = (v * fast_negative_powf omega (lrn_beta desc))%R /\
  ((0 < omega)%R -> out = (v * Rpower omega (- lrn_beta desc))%R) /\
  (forall src' : buffer R,
      src' (data_off fmt s mb oc oh ow) = v ->
      dst (ker_fwd fmt s desc src' st d mb oc oh ow) d = out).
Proof.
  intros Hsz Hv v omega out.
  assert (Hout : out = (v * fast_negative_powf omega (lrn_beta desc))%R).
  { subst out. rewrite ker_fwd_dst, upd_same.
    apply fwd_value_single; assumption. }
  split; [exact Hout|]. split.
  - intros Hpos. rewrite Hout, fast_negative_powf_Rpower by assumption.
    reflexivity.
  - intros src' Hsrc'. rewrite Hout, ker_fwd_dst, upd_same.
    rewrite fwd_value_single by assumption.
    cbv zeta. rewrite Hsrc'. reflexivity.
Qed.

Lemma forward_degenerate_window_witness :
  dst (ker_fwd nhwc (mk_shape 1 2 2 2)
               {| lrn_alpha := 1%R; lrn_beta := 1%R; lrn_k := 1%R;
                  local_size := 1; across_channels := false |}
               (fun _ => 2%R) {| dst := fun _ => 0%R; ws := None |}
               7 0 1 1 1) 7
  = (2 * fast_negative_powf (1 + 1 * (2 * 2)) 1)%R.
Proof.
  apply (forward_degenerate_window nhwc (mk_shape 1 2 2 2)
           {| lrn_alpha := 1%R; lrn_beta := 1%R; lrn_k := 1%R;
              local_size := 1; across_channels := false |}
           (fun _ => 2%R) {| dst := fun _ => 0%R; ws := None |} 7 0 1 1 1).
  - reflexivity.
  - unfold valid_coord; cbn; lia.
Defined.

(** ** The drivers as sequences of writes *)

Section Writes.
Context {F T : Type}.
Variable key : T -> Z.
Variable v : T -> F.

Lemma fold_upd_notin (l : list T) :
  forall (b : buffer F) (o : Z),
    ~ In o (map key l) ->
    fold_left (fun b c => upd b (key c) (v c)) l b o = b o.
Proof.
  induction l as [|c l IH]; intros b o Hnot; [reflexivity|].
  cbn [fold_left]. rewrite IH.
  - apply upd_other. intros ->. apply Hnot. left. reflexivity.
  - intros Hin. apply Hnot. right. exact Hin.
Qed.

Lemma fold_upd_in (l : list T) :
  NoDup (map key l) ->
  forall (b : buffer F) (x : T),
    In x l -> fold_left (fun b c => upd b (key c) (v c)) l b (key x) = v x.
Proof.
  induction l as [|c l IH]; intros Hnd b x Hin; [destruct Hin|].
  cbn [map] in Hnd. inversion Hnd as [|? ? Hnotin Hnd']; subst.
  cbn [fold_left]. destruct Hin as [-> | Hin].
  - rewrite fold_upd_notin by assumption. apply upd_same.
  - apply IH; assumption.
Qed.
End Writes.

Lemma fold_upd_last {F T : Type} (v : T -> F) (o : Z) (l : list (Z * T)) :
  forall (b b0 : buffer F) (r : option T),
    b o = match r with Some x => v x | None => b0 o end ->
    fold_left (fun b call => upd b (fst call) (v (snd call))) l b o
    = match fold_left (fun r call => if fst call =? o then Some (snd call)
                                     else r) l r
      with Some x => v x | None => b0 o end.
Proof.
  induction l as [|[d x] l IH]; intros b b0 r Hinv; [exact Hinv|].
  cbn [fold_left fst snd]. apply IH.
  unfold upd. rewrite (Z.eqb_sym o d).
  destruct (d =? o); [reflexivity | exact Hinv].
Qed.

Section Drivers.
Context {F : Type} {ops : FloatOps F}.
Variable fmt : memory_format.
Variable s : lrn_shape.
Variable desc : lrn_desc F.

Lemma execute_forward_dst (src : buffer F) (st : fwd_state F) :
  dst (execute_forward fmt s desc src st)
  = fold_left (fun b call =>
                 upd b (fst call)
                     ((fun x : coord =>
                         let '(mb, c, h, w) := x in
                         fwd_value fmt s desc src mb c h w) (snd call)))
              (loop_nest fmt s) (dst st).
Proof.
  unfold execute_forward. revert st.
  induction (loop_nest fmt s) as [|[d [[[mb c] h] w]] l IH]; intros st;
    [reflexivity|].
  cbn [fold_left]. rewrite IH, ker_fwd_dst. reflexivity.
Qed.

Lemma execute_forward_ws (src : buffer F) (st : fwd_state F) :
  ws (execute_forward fmt s desc src st)
  = option_map
      (fold_left (fun b call =>
                    upd b ((fun x : ker_call =>
                              let '(_, (mb, c, h, w)) := x in
                              data_off fmt s mb c h w) call)
                        ((fun x : ker_call =>
                            let '(_, (mb, c, h, w)) := x in
                            fwd_omega fmt s desc src mb c h w) call))
                 (loop_nest fmt s))
      (ws st).
Proof.
  unfold execute_forward. revert st.
  induction (loop_nest fmt s) as [|[d [[[mb c] h] w]] l IH]; intros st.
  - cbn [fold_left]. destruct (ws st); reflexivity.
  - cbn [fold_left]. rewrite IH, ker_fwd_ws.
    destruct (ws st); reflexivity.
Qed.

Lemma execute_backward_fold (inp : bwd_inputs F) (b : buffer F) :
  execute_backward fmt s desc inp b
  = fold_left (fun b call =>
                 upd b (fst call)
                     ((fun x : coord =>
                         let '(mb, c, h, w) := x in
                         bwd_value fmt s desc (in_src inp) (in_diff_dst inp)
                                   mb c h w) (snd call)))
              (loop_nest fmt s) b.
Proof.
  unfold execute_backward. revert b.
  induction (loop_nest fmt s) as [|[d [[[mb c] h] w]] l IH]; intros b;
    [reflexivity|].
  cbn [fold_left]. rewrite IH. reflexivity.
Qed.

(** In sequential order an element ends up with the value of the last
    call that writes it. *)
Lemma execute_forward_last (src : buffer F) (st : fwd_state F) (o : Z) :
  dst (execute_forward fmt s desc src st) o
  = match last_write o (loop_nest fmt s) with
    | Some (mb, c, h, w) => fwd_value fmt s desc src mb c h w
    | None => dst st o
    end.
Proof.
  rewrite execute_forward_dst. unfold last_write.
  rewrite (fold_upd_last
             (fun x : coord =>
                let '(mb, c, h, w) := x in fwd_value fmt s desc src mb c h w)
             o (loop_nest fmt s) (dst st) (dst st) None eq_refl).
  match goal with
  | |- context [match ?r with Some _ => _ | None => _ end] =>
      destruct r as [[[[mb c] h] w]|]
  end; reflexivity.
Qed.

Hypothesis Hfmt : fmt <> any.
Hypothesis Hs : nonneg_shape s.
Hypothesis Hwb : whole_blocks fmt s.

(** After the forward pass the element of a valid coordinate holds the
    value the kernel computes for that coordinate. *)
Lemma execute_forward_at (src : buffer F) (st : fwd_state F)
      (mb c h w : Z) :
  valid_coord s mb c h w ->
  dst (execute_forward fmt s desc src st) (data_off fmt s mb c h w)
  = fwd_value fmt s desc src mb c h w.
Proof.
  intros Hv. rewrite execute_forward_dst.
  pose proof (loop_nest_complete fmt s mb c h w Hv) as Hin.
  exact (fold_upd_in fst _ (loop_nest fmt s)
           (NoDup_loop_nest_offsets fmt s Hfmt Hs Hwb) (dst st) _ Hin).
Qed.

Lemma execute_forward_ws_at (src : buffer F) (st : fwd_state F)
      (w0 : buffer F) (mb c h w : Z) :
  ws st = Some w0 -> valid_coord s mb c h w ->
  exists wf,
    ws (execute_forward fmt s desc src st) = Some wf /\
    wf (data_off fmt s mb c h w) = fwd_omega fmt s desc src mb c h w.
Proof.
  intros Hws Hv. rewrite execute_forward_ws, Hws. cbn [option_map].
  eexists. split; [reflexivity|].
  pose proof (loop_nest_complete fmt s mb c h w Hv) as Hin.
  refine (fold_upd_in
            (fun x : ker_call =>
               let '(_, (mb, c, h, w)) := x in data_off fmt s mb c h w)
            _ (loop_nest fmt s) _ w0 _ Hin).
  erewrite map_ext_in.
  - apply (NoDup_loop_nest_offsets fmt s); assumption.
  - intros [d [[[mb' c'] h'] w']] Hcall. cbn [fst].
    symmetry. exact (loop_nest_call _ _ _ _ _ _ _ Hcall).
Qed.

Lemma execute_backward_at (inp : bwd_inputs F) (b : buffer F)
      (mb c h w : Z) :
  valid_coord s mb c h w ->
  execute_backward fmt s desc inp b (data_off fmt s mb c h w)
  = bwd_value fmt s desc (in_src inp) (in_diff_dst inp) mb c h w.
Proof.
  intros Hv. rewrite execute_backward_fold.
  pose proof (loop_nest_complete fmt s mb c h w Hv) as Hin.
  exact (fold_upd_in fst _ (loop_nest fmt s)
           (NoDup_loop_nest_offsets fmt s Hfmt Hs Hwb) b _ Hin).
Qed.
End Drivers.

(** ** The workspace *)


(** Reading the workspace back with each channel's own factor in it is the
    formula of the specification. *)
Lemma spec_backward_reuse_own_omega {F : Type} {ops : FloatOps F}
      (s : lrn_shape) (desc : lrn_desc F) (x dy : tensor F)
      (mb oc oh ow : Z) :
  spec_backward_reuse s desc x dy
    (fun mb c oh ow => spec_channel_omega s desc x mb c oh ow) mb oc oh ow
  = spec_backward s desc x dy mb oc oh ow.
Proof. reflexivity. Qed.




(** ** Layout independence *)

Lemma fwd_window_represents {F : Type} (fmt : memory_format) (s : lrn_shape)
      (desc : lrn_desc F) (src : buffer F) (x : tensor F) (mb oc oh ow : Z) :
  represents fmt s src x -> valid_coord s mb oc oh ow ->
  map src (fwd_window fmt s desc mb oc oh ow)
  = if across_channels desc then
      map (fun c => x mb c oh ow)
          (range (Z.max (oc - half_size desc + 0) 0)
                 (Z.min (oc + half_size desc + 1) (C s)))
    else
      flat_map (fun h => map (fun w => x mb oc h w)
                             (range (Z.max (ow - half_size desc + 0) 0)
                                    (Z.min (ow + half_size desc + 1) (W s))))
               (range (Z.max (oh - half_size desc + 0) 0)
                      (Z.min (oh + half_size desc + 1) (H s))).
Proof.
  intros Hrep (Hmb & Hc & Hh & Hw). unfold fwd_window.
  destruct (across_channels desc).
  - rewrite map_map. apply map_ext_in. intros c Hin. apply in_range in Hin.
    apply Hrep. unfold valid_coord. lia.
  - rewrite map_flat_map. apply flat_map_ext_in. intros h Hinh.
    apply in_range in Hinh.
    rewrite map_map. apply map_ext_in. intros w Hinw. apply in_range in Hinw.
    apply Hrep. unfold valid_coord. lia.
Qed.

Lemma fwd_value_layouts {F : Type} {ops : FloatOps F}
      (fmt1 fmt2 : memory_format) (s : lrn_shape) (desc : lrn_desc F)
      (src1 src2 : buffer F) (x : tensor F) (mb oc oh ow : Z) :
  represents fmt1 s src1 x -> represents fmt2 s src2 x ->
  valid_coord s mb oc oh ow ->
  fwd_value fmt1 s desc src1 mb oc oh ow
  = fwd_value fmt2 s desc src2 mb oc oh ow.
Proof.
  intros Hr1 Hr2 Hv. unfold fwd_value, fwd_omega.
  rewrite !sum_sq_values.
  rewrite (fwd_window_represents fmt1 s desc src1 x) by assumption.
  rewrite (fwd_window_represents fmt2 s desc src2 x) by assumption.
  pose proof (Hr1 _ _ _ _ Hv) as E1. pose proof (Hr2 _ _ _ _ Hv) as E2.
  unfold view in E1, E2. rewrite E1, E2. reflexivity.
Qed.

(** C4, as amended.  For a shape whose number of channels is a multiple of
    the block size of each blocked format in play, the forward pass gives the
    same logical output under any two of nchw, nhwc, nChw8c and nChw16c: if
    the two source buffers hold the same logical tensor, the two output
    buffers hold the same value at every valid coordinate, each at the offset
    of its own layout; that value is the one of the specification. *)
Theorem forward_layout_equivalence {F : Type} {ops : FloatOps F}
        (fmt1 fmt2 : memory_format) (s : lrn_shape) (desc : lrn_desc F)
        (x : tensor F) (src1 src2 : buffer F) (st1 st2 : fwd_state F)
        (mb c h w : Z) :
  fmt1 <> any -> fmt2 <> any -> nonneg_shape s ->
  whole_blocks fmt1 s -> whole_blocks fmt2 s ->
  represents fmt1 s src1 x -> represents fmt2 s src2 x ->
  valid_coord s mb c h w ->
  view fmt1 s (dst (execute_forward fmt1 s desc src1 st1)) mb c h w
  = view fmt2 s (dst (execute_forward fmt2 s desc src2 st2)) mb c h w
  /\
  (1 <= local_size desc ->
   view fmt1 s (dst (execute_forward fmt1 s desc src1 st1)) mb c h w
   = spec_forward s desc x mb c h w).
Proof.
  intros Hf1 Hf2 Hs Hwb1 Hwb2 Hr1 Hr2 Hv. unfold view.
  rewrite !execute_forward_at by assumption.
  split.
  - apply (fwd_value_layouts fmt1 fmt2 s desc src1 src2 x); assumption.
  - intros Hsz. rewrite fwd_value_spec by assumption.
    apply spec_forward_ext; assumption.
Qed.

Lemma forward_layout_equivalence_witness :
  view nchw (mk_shape 2 16 2 2)
       (dst (execute_forward nchw (mk_shape 2 16 2 2) unit_desc ones
                             zero_state)) 1 3 1 0
  = view nChw16c (mk_shape 2 16 2 2)
         (dst (execute_forward nChw16c (mk_shape 2 16 2 2) unit_desc ones
                               zero_state)) 1 3 1 0.
Proof.
  refine (proj1 (forward_layout_equivalence
                   nchw nChw16c (mk_shape 2 16 2 2) unit_desc
                   (fun _ _ _ _ => 1%R) ones ones zero_state zero_state
                   1 3 1 0 _ _ _ _ _ _ _ _)).
  - discriminate.
  - discriminate.
  - unfold nonneg_shape; cbn; lia.
  - intros Hb. discriminate Hb.
  - intros _. reflexivity.
  - intros mb c h w _. reflexivity.
  - intros mb c h w _. reflexivity.
  - unfold valid_coord; cbn; lia.
Defined.

(** C4, as stated, fails on a partial block.  With one channel, a 1x2 plane
    and a batch of 2, every element 1 and [unit_desc]: under nchw the output
    at (0,0,0,1) is 1/2; under nChw8c that element lives at offset 8, whose
    last writer is the call for the lane (1,6,0,0), which has no channel in
    its window and stores 1. *)
Lemma layouts_differ_on_partial_block :
  represents nchw (mk_shape 2 1 1 2) ones (fun _ _ _ _ => 1%R) /\
  represents nChw8c (mk_shape 2 1 1 2) ones (fun _ _ _ _ => 1%R) /\
  valid_coord (mk_shape 2 1 1 2) 0 0 0 1 /\
  last_write (data_off nChw8c (mk_shape 2 1 1 2) 0 0 0 1)
             (loop_nest nChw8c (mk_shape 2 1 1 2)) = Some (1, 6, 0, 0) /\
  view nchw (mk_shape 2 1 1 2)
       (dst (execute_forward nchw (mk_shape 2 1 1 2) unit_desc ones
                             zero_state)) 0 0 0 1 = (1 / 2)%R /\
  view nChw8c (mk_shape 2 1 1 2)
       (dst (execute_forward nChw8c (mk_shape 2 1 1 2) unit_desc ones
                             zero_state)) 0 0 0 1 = 1%R /\
  view nchw (mk_shape 2 1 1 2)
       (dst (execute_forward nchw (mk_shape 2 1 1 2) unit_desc ones
                             zero_state)) 0 0 0 1
  <> view nChw8c (mk_shape 2 1 1 2)
          (dst (execute_forward nChw8c (mk_shape 2 1 1 2) unit_desc ones
                                zero_state)) 0 0 0 1.
Proof.
  assert (Hv : valid_coord (mk_shape 2 1 1 2) 0 0 0 1)
    by (unfold valid_coord; cbn; lia).
  assert (Hnchw :
            view nchw (mk_shape 2 1 1 2)
                 (dst (execute_forward nchw (mk_shape 2 1 1 2) unit_desc ones
                                       zero_state)) 0 0 0 1 = (1 / 2)%R).
  { unfold view. rewrite execute_forward_at; try assumption.
    - rewrite fwd_value_single by (reflexivity || assumption).
      cbv zeta. unfold ones. cbn [lrn_k lrn_alpha lrn_beta unit_desc].
      rewrite fast_negative_powf_general by lra.
      rewrite Rpower_1 by lra. lra.
    - discriminate.
    - unfold nonneg_shape; cbn; lia.
    - intros Hb. discriminate Hb. }
  assert (H8c :
            view nChw8c (mk_shape 2 1 1 2)
                 (dst (execute_forward nChw8c (mk_shape 2 1 1 2) unit_desc ones
                                       zero_state)) 0 0 0 1 = 1%R).
  { unfold view. rewrite execute_forward_last.
    set (r := last_write _ _). vm_compute in r. subst r.
    cbv beta iota. unfold fwd_value, fwd_omega.
    change (fwd_window nChw8c (mk_shape 2 1 1 2) unit_desc 1 6 0 0)
      with (@nil Z).
    change (summands unit_desc) with 1.
    unfold sum_sq, ones.
    cbn [fold_left f_add f_mul f_div f_of_int R_ops
         lrn_k lrn_alpha lrn_beta unit_desc].
    rewrite fast_negative_powf_general by lra.
    rewrite Rpower_1 by lra. field. }
  split; [intros ? ? ? ? _; reflexivity|].
  split; [intros ? ? ? ? _; reflexivity|].
  split; [exact Hv|].
  split; [reflexivity|].
  split; [exact Hnchw|]. split; [exact H8c|].
  rewrite Hnchw, H8c. lra.
Qed.

(** ** The backward kernel *)

Section BackwardShape.
Context {F : Type} {ops : FloatOps F}.
Variable fmt : memory_format.
Variable s : lrn_shape.
Variable desc : lrn_desc F.
Variables src diff_dst : buffer F.
Variables mb oc oh ow : Z.

(** The [omega] of an iteration does not depend on the iteration. *)
Lemma bwd_omega_const (c : Z) :
  bwd_omega fmt s desc src mb oc oh ow c
  = bwd_omega fmt s desc src mb oc oh ow oc.
Proof. reflexivity. Qed.

Lemma bwd_loop (l : list Z) :
  forall B m,
    fold_left (bwd_step fmt s desc src diff_dst mb oc oh ow) l (B, m)
    = (fold_left
         (fun B c =>
            let omega := bwd_omega fmt s desc src mb oc oh ow oc in
            f_add B (f_mul (f_mul (f_div (f_of_int 1) omega)
                                  (f_mul (src (data_off fmt s mb c oh ow))
                                         (fast_negative_powf
                                            omega (lrn_beta desc))))
                           (diff_dst (data_off fmt s mb c oh ow))))
         l B,
       if existsb (fun c => c =? oc) l
       then bwd_omega fmt s desc src mb oc oh ow oc else m).
Proof.
  induction l as [|c l IH]; intros B m; [reflexivity|].
  cbn [fold_left existsb]. unfold bwd_step at 2. rewrite IH.
  f_equal. destruct (c =? oc); cbn [orb]; [|reflexivity].
  destruct (existsb _ l); reflexivity.
Qed.

Lemma center_in_window :
  1 <= local_size desc -> 0 <= oc < C s ->
  existsb (fun c => c =? oc) (bwd_channels s desc oc) = true.
Proof.
  intros Hsz Hoc. apply existsb_exists. exists oc. split.
  - unfold bwd_channels. apply in_range.
    assert (0 <= half_ksize desc)
      by (unfold half_ksize; apply Z.quot_pos; lia).
    lia.
  - apply Z.eqb_refl.
Qed.

(** What the kernel stores: the combination of the specification, with
    the [omega] of the output channel in the place of the [omega] of every
    channel of the window. *)
Lemma bwd_value_shape :
  1 <= local_size desc -> 0 <= oc < C s ->
  let omega := bwd_omega fmt s desc src mb oc oh ow oc in
  let off := data_off fmt s mb oc oh ow in
  let B :=
    fold_left
      (fun B c =>
         f_add B (f_mul (f_mul (f_div (f_of_int 1) omega)
                               (f_mul (src (data_off fmt s mb c oh ow))
                                      (fast_negative_powf
                                         omega (lrn_beta desc))))
                        (diff_dst (data_off fmt s mb c oh ow))))
      (bwd_channels s desc oc) (f_of_int 0) in
  bwd_value fmt s desc src diff_dst mb oc oh ow
  = f_sub (f_mul (fast_negative_powf omega (lrn_beta desc)) (diff_dst off))
          (f_mul (f_mul B (src off))
                 (f_div (f_mul (f_mul (f_of_int 2) (lrn_alpha desc))
                               (lrn_beta desc))
                        (f_of_int (local_size desc)))).
Proof.
  intros Hsz Hoc. cbv zeta. unfold bwd_value.
  rewrite bwd_loop, center_in_window by assumption. reflexivity.
Qed.
End BackwardShape.

(** In real arithmetic the [omega] the backward kernel uses for every
    channel of its window is the normalization factor of the output
    channel. *)
Lemma bwd_omega_center (fmt : memory_format) (s : lrn_shape)
      (desc : lrn_desc R) (src : buffer R) (mb oc oh ow c : Z) :
  1 <= local_size desc ->
  bwd_omega fmt s desc src mb oc oh ow c
  = spec_channel_omega s desc (view fmt s src) mb oc oh ow.
Proof.
  intros Hsz. unfold bwd_omega, spec_channel_omega, bwd_window, bwd_channels.
  rewrite sum_sq_values, map_map, clamped_range.
  unfold half_ksize, spec_half.
  rewrite Z.quot_div_nonneg by lia.
  cbn [f_add f_div f_mul R_ops]. unfold view.
  rewrite Rmult_comm. reflexivity.
Qed.

(** C1 fails on the code.  On [shape3], [desc3], [src3], at output channel
    0: the window of channel 0 is [{0, 1}] and the window of its neighbor,
    channel 1, is [{0, 1, 2}]; the [omega] the kernel uses in iteration
    [c = 1] is 4, the one over the window of channel 0, where the
    normalization factor of channel 1 is 8. *)
Theorem backward_neighbor_omega_at_input :
  bwd_channels shape3 desc3 0 = [0; 1] /\
  clamped 1 (spec_half desc3) (C shape3) = [0; 1; 2] /\
  bwd_omega nchw shape3 desc3 src3 0 0 0 0 1 = 4%R /\
  spec_channel_omega shape3 desc3 (view nchw shape3 src3) 0 1 0 0 = 8%R /\
  spec_channel_omega shape3 desc3 (view nchw shape3 src3) 0 0 0 0 = 4%R.
Proof.
  split; [reflexivity|]. split; [reflexivity|]. split; [|split].
  - unfold bwd_omega, bwd_window, sum_sq.
    change (bwd_channels shape3 desc3 0) with [0; 1].
    cbn -[IZR]. lra.
  - unfold spec_channel_omega, sum_squares.
    change (clamped 1 (spec_half desc3) (C shape3)) with [0; 1; 2].
    cbn -[IZR]. lra.
  - unfold spec_channel_omega, sum_squares.
    change (clamped 0 (spec_half desc3) (C shape3)) with [0; 1].
    cbn -[IZR]. lra.
Qed.

(** C3 fails on the code, by the defect of C1.  On the same input with an
    upstream gradient of 1 the kernel stores 0 for channel 0, where
    [A - B * src * (2 * alpha * beta / local_size)] with the cross term over
    each channel's own [omega] is 3/32. *)
Theorem backward_value_at_input :
  bwd_value nchw shape3 desc3 src3 ones 0 0 0 0 = 0%R /\
  spec_backward shape3 desc3 (view nchw shape3 src3) (view nchw shape3 ones)
                0 0 0 0 = (3 / 32)%R.
Proof.
  assert (P4 : @fast_negative_powf R R_ops 4%R 1%R = (1 / 4)%R)
    by (rewrite fast_negative_powf_general, Rpower_1 by lra; reflexivity).
  assert (P8 : @fast_negative_powf R R_ops 8%R 1%R = (1 / 8)%R)
    by (rewrite fast_negative_powf_general, Rpower_1 by lra; reflexivity).
  split.
  - unfold bwd_value, bwd_step, bwd_omega, bwd_window, sum_sq.
    change (bwd_channels shape3 desc3 0) with [0; 1].
    cbn -[IZR fast_negative_powf]. unfold ones.
    replace (2 + (0 + 1 * 1 + 1 * 1) * 3 / 3)%R with 4%R by lra.
    rewrite P4. lra.
  - unfold spec_backward, spec_B, spec_channel_omega, sum_squares.
    change (clamped 0 (spec_half desc3) (C shape3)) with [0; 1].
    cbn [fold_left map].
    change (clamped 0 (spec_half desc3) (C shape3)) with [0; 1].
    change (clamped 1 (spec_half desc3) (C shape3)) with [0; 1; 2].
    unfold view, ones. cbn -[IZR fast_negative_powf].
    replace (2 + 3 * (0 + 1 * 1 + 1 * 1) / 3)%R with 4%R by lra.
    replace (2 + 3 * (0 + 1 * 1 + 1 * 1 + 2 * 2) / 3)%R with 8%R by lra.
    rewrite P4, P8. lra.
Qed.

(** * Further properties of the drivers *)

(** ** Empty shapes *)

Lemma flat_map_nil {A B : Type} (f : A -> list B) (l : list A) :
  (forall a, f a = []) -> flat_map f l = [].
Proof.
  intros Hf. induction l as [|a l IH]; [reflexivity|].
  cbn [flat_map]. rewrite Hf, IH. reflexivity.
Qed.

Lemma for_range_empty (c_st c_en step : Z) :
  c_en <= c_st -> for_range c_st c_en step = [].
Proof.
  intros Hle. unfold for_range.
  replace (Z.to_nat (c_en - c_st)) with O by lia. reflexivity.
Qed.

Lemma loop_nest_empty (fmt : memory_format) (s : lrn_shape) :
  MB s <= 0 \/ C s <= 0 \/ H s <= 0 \/ W s <= 0 -> loop_nest fmt s = [].
Proof.
  intros Hdim. unfold loop_nest.
  destruct Hdim as [Hd | [Hd | [Hd | Hd]]].
  - rewrite (range_empty 0 (MB s)) by lia. destruct fmt; reflexivity.
  - rewrite (range_empty 0 (C s)), (for_range_empty 0 (C s)) by lia.
    destruct fmt; cbn [is_blocked];
      repeat first [reflexivity | apply flat_map_nil; intros ?].
  - rewrite (range_empty 0 (H s)) by lia.
    destruct fmt; cbn [is_blocked];
      repeat first [reflexivity | apply flat_map_nil; intros ?].
  - rewrite (range_empty 0 (W s)) by lia.
    destruct fmt; cbn [is_blocked];
      repeat first [reflexivity | apply flat_map_nil; intros ?].
Qed.

(** X1.  When a dimension of the tensor is zero (or negative) no loop nest
    makes a call, under any format: the forward pass returns [dst] and the
    workspace as they were and the backward pass returns [diff_src] as it
    was. *)
Theorem empty_shape_is_noop {F : Type} {ops : FloatOps F}
        (fmt : memory_format) (s : lrn_shape) (desc : lrn_desc F) :
  MB s <= 0 \/ C s <= 0 \/ H s <= 0 \/ W s <= 0 ->
  loop_nest fmt s = [] /\
  (forall (src : buffer F) (st : fwd_state F),
      execute_forward fmt s desc src st = st) /\
  (forall (inp : bwd_inputs F) (diff_src : buffer F),
      execute_backward fmt s desc inp diff_src = diff_src).
Proof.
  intros Hdim. pose proof (loop_nest_empty fmt s Hdim) as Hnil.
  split; [exact Hnil|]. split.
  - intros src st. unfold execute_forward. rewrite Hnil. reflexivity.
  - intros inp b. unfold execute_backward. rewrite Hnil. reflexivity.
Qed.

Lemma empty_shape_is_noop_witness :
  execute_forward nChw16c (mk_shape 4 0 3 3) unit_desc ones zero_state
  = zero_state.
Proof.
  apply (empty_shape_is_noop nChw16c (mk_shape 4 0 3 3) unit_desc).
  right. left. cbn. lia.
Defined.

(** ** What a pass writes *)

Lemma fold_ker_fwd_dst {F : Type} {ops : FloatOps F} (fmt : memory_format)
      (s : lrn_shape) (desc : lrn_desc F) (src : buffer F) (l : list ker_call) :
  forall st : fwd_state F,
    dst (fold_left (fun st (call : ker_call) =>
                      let '(d, (mb, c, h, w)) := call in
                      ker_fwd fmt s desc src st d mb c h w) l st)
    = fold_left (fun b call =>
                   upd b (fst call)
                       ((fun x : coord =>
                           let '(mb, c, h, w) := x in
                           fwd_value fmt s desc src mb c h w) (snd call)))
                l (dst st).
Proof.
  induction l as [|[d [[[mb c] h] w]] l IH]; intros st; [reflexivity|].
  cbn [fold_left]. rewrite IH, ker_fwd_dst. reflexivity.
Qed.

Lemma fold_ker_fwd_ws {F : Type} {ops : FloatOps F} (fmt : memory_format)
      (s : lrn_shape) (desc : lrn_desc F) (src : buffer F) (l : list ker_call) :
  forall st : fwd_state F,
    ws (fold_left (fun st (call : ker_call) =>
                     let '(d, (mb, c, h, w)) := call in
                     ker_fwd fmt s desc src st d mb c h w) l st)
    = option_map
        (fold_left (fun b call =>
                      upd b ((fun x : ker_call =>
                                let '(_, (mb, c, h, w)) := x in
                                data_off fmt s mb c h w) call)
                          ((fun x : ker_call =>
                              let '(_, (mb, c, h, w)) := x in
                              fwd_omega fmt s desc src mb c h w) call))
                   l)
        (ws st).
Proof.
  induction l as [|[d [[[mb c] h] w]] l IH]; intros st.
  - cbn [fold_left]. destruct (ws st); reflexivity.
  - cbn [fold_left]. rewrite IH, ker_fwd_ws. destruct (ws st); reflexivity.
Qed.

Lemma fold_ker_bwd {F : Type} {ops : FloatOps F} (fmt : memory_format)
      (s : lrn_shape) (desc : lrn_desc F) (inp : bwd_inputs F)
      (l : list ker_call) :
  forall b : buffer F,
    fold_left (fun b (call : ker_call) =>
                 let '(d, (mb, c, h, w)) := call in
                 ker_bwd fmt s desc inp b d mb c h w) l b
    = fold_left (fun b call =>
                   upd b (fst call)
                       ((fun x : coord =>
                           let '(mb, c, h, w) := x in
                           bwd_value fmt s desc (in_src inp) (in_diff_dst inp)
                                     mb c h w) (snd call)))
                l b.
Proof.
  induction l as [|[d [[[mb c] h] w]] l IH]; intros b; [reflexivity|].
  cbn [fold_left]. rewrite IH. reflexivity.
Qed.

Lemma ws_keys (fmt : memory_format) (s : lrn_shape) :
  map (fun x : ker_call =>
         let '(_, (mb, c, h, w)) := x in data_off fmt s mb c h w)
      (loop_nest fmt s)
  = map fst (loop_nest fmt s).
Proof.
  apply map_ext_in. intros [d [[[mb c] h] w]] Hcall. cbn [fst].
  symmetry. exact (loop_nest_call _ _ _ _ _ _ _ Hcall).
Qed.

(** X2.  With whole blocks a pass writes the elements [0 .. MB*C*H*W) of
    its output and nothing else: every offset outside that range keeps its
    old content, in [dst], in the workspace and in [diff_src]; and what the
    range holds afterwards does not depend on what the output buffer held
    before. *)
Theorem pass_overwrites_exactly_the_tensor {F : Type} {ops : FloatOps F}
        (fmt : memory_format) (s : lrn_shape) (desc : lrn_desc F) :
  fmt <> any -> nonneg_shape s -> whole_blocks fmt s ->
  (forall (src : buffer F) (st : fwd_state F) (o : Z),
      ~ (0 <= o < numel s) ->
      dst (execute_forward fmt s desc src st) o = dst st o /\
      option_map (fun w => w o) (ws (execute_forward fmt s desc src st))
      = option_map (fun w => w o) (ws st)) /\
  (forall (inp : bwd_inputs F) (b : buffer F) (o : Z),
      ~ (0 <= o < numel s) -> execute_backward fmt s desc inp b o = b o) /\
  (forall (src : buffer F) (st1 st2 : fwd_state F) (o : Z),
      0 <= o < numel s ->
      dst (execute_forward fmt s desc src st1) o
      = dst (execute_forward fmt s desc src st2) o) /\
  (forall (inp : bwd_inputs F) (b1 b2 : buffer F) (o : Z),
      0 <= o < numel s ->
      execute_backward fmt s desc inp b1 o
      = execute_backward fmt s desc inp b2 o).
Proof.
  intros Hfmt Hs Hwb.
  pose proof (loop_nest_offsets fmt s Hfmt Hs Hwb) as Hoffs.
  pose proof (data_off_layout fmt s Hfmt Hs Hwb) as (_ & _ & Honto).
  split; [|split; [|split]].
  - intros src st o Ho. split.
    + rewrite execute_forward_dst. apply (fold_upd_notin fst).
      rewrite Hoffs, in_range. exact Ho.
    + rewrite execute_forward_ws. destruct (ws st) as [w0|]; [|reflexivity].
      cbn [option_map]. f_equal.
      apply (fold_upd_notin
               (fun x : ker_call =>
                  let '(_, (mb, c, h, w)) := x in data_off fmt s mb c h w)).
      rewrite ws_keys, Hoffs, in_range. exact Ho.
  - intros inp b o Ho. rewrite execute_backward_fold.
    apply (fold_upd_notin fst). rewrite Hoffs, in_range. exact Ho.
  - intros src st1 st2 o Ho.
    destruct (Honto o Ho) as (mb & c & h & w & Hv & <-).
    rewrite !(execute_forward_at fmt s desc Hfmt Hs Hwb) by assumption.
    reflexivity.
  - intros inp b1 b2 o Ho.
    destruct (Honto o Ho) as (mb & c & h & w & Hv & <-).
    rewrite !(execute_backward_at fmt s desc Hfmt Hs Hwb) by assumption.
    reflexivity.
Qed.

Lemma pass_overwrites_exactly_the_tensor_witness :
  dst (execute_forward nChw16c (mk_shape 1 16 1 2) unit_desc ones zero_state)
      40
  = dst zero_state 40.
Proof.
  refine (proj1 (proj1 (pass_overwrites_exactly_the_tensor
                          nChw16c (mk_shape 1 16 1 2) unit_desc _ _ _)
                       ones zero_state 40 _)).
  - discriminate.
  - unfold nonneg_shape; cbn; lia.
  - intros _. reflexivity.
  - cbn. lia.
Defined.

(** ** Order of the calls *)

Lemma fold_upd_perm {F T : Type} (key : T -> Z) (v : T -> F) (l l' : list T) :
  Permutation l l' -> NoDup (map key l) ->
  forall (b : buffer F) (o : Z),
    fold_left (fun b c => upd b (key c) (v c)) l b o
    = fold_left (fun b c => upd b (key c) (v c)) l' b o.
Proof.
  intros Hperm Hnd b o.
  assert (Hnd' : NoDup (map key l'))
    by (eapply Permutation_NoDup; [apply Permutation_map; exact Hperm
                                  | exact Hnd]).
  destruct (in_dec Z.eq_dec o (map key l)) as [Hin | Hnot].
  - apply in_map_iff in Hin. destruct Hin as [x [<- Hx]].
    rewrite (fold_upd_in key v l Hnd b x Hx).
    rewrite (fold_upd_in key v l' Hnd' b x (Permutation_in x Hperm Hx)).
    reflexivity.
  - rewrite (fold_upd_notin key v l b o Hnot).
    rewrite (fold_upd_notin key v l' b o); [reflexivity|].
    intros Hin. apply Hnot.
    eapply Permutation_in;
      [apply Permutation_sym, Permutation_map; exact Hperm | exact Hin].
Qed.

(** X3.  With whole blocks the result of a pass does not depend on the
    order in which the calls of its loop nest are made (the nests are
    [omp parallel for]): running the kernel over any permutation of the
    calls leaves every element of [dst], of the workspace and of [diff_src]
    as the sequential pass does. *)
Theorem pass_order_independent {F : Type} {ops : FloatOps F}
        (fmt : memory_format) (s : lrn_shape) (desc : lrn_desc F)
        (calls : list ker_call) :
  fmt <> any -> nonneg_shape s -> whole_blocks fmt s ->
  Permutation (loop_nest fmt s) calls ->
  (forall (src : buffer F) (st : fwd_state F) (o : Z),
      dst (fold_left (fun st (call : ker_call) =>
                        let '(d, (mb, c, h, w)) := call in
                        ker_fwd fmt s desc src st d mb c h w) calls st) o
      = dst (execute_forward fmt s desc src st) o /\
      option_map (fun w => w o)
        (ws (fold_left (fun st (call : ker_call) =>
                          let '(d, (mb, c, h, w)) := call in
                          ker_fwd fmt s desc src st d mb c h w) calls st))
      = option_map (fun w => w o) (ws (execute_forward fmt s desc src st))) /\
  (forall (inp : bwd_inputs F) (b : buffer F) (o : Z),
      fold_left (fun b (call : ker_call) =>
                   let '(d, (mb, c, h, w)) := call in
                   ker_bwd fmt s desc inp b d mb c h w) calls b o
      = execute_backward fmt s desc inp b o).
Proof.
  intros Hfmt Hs Hwb Hperm.
  pose proof (NoDup_loop_nest_offsets fmt s Hfmt Hs Hwb) as Hnd.
  split.
  - intros src st o. split.
    + rewrite fold_ker_fwd_dst, execute_forward_dst.
      symmetry. apply (fold_upd_perm fst); assumption.
    + rewrite fold_ker_fwd_ws, execute_forward_ws.
      destruct (ws st) as [w0|]; [|reflexivity].
      cbn [option_map]. f_equal. symmetry.
      apply (fold_upd_perm
               (fun x : ker_call =>
                  let '(_, (mb, c, h, w)) := x in data_off fmt s mb c h w));
        [assumption|].
      rewrite ws_keys. exact Hnd.
  - intros inp b o. rewrite fold_ker_bwd, execute_backward_fold.
    symmetry. apply (fold_upd_perm fst); assumption.
Qed.

Lemma pass_order_independent_witness :
  fold_left (fun b (call : ker_call) =>
               let '(d, (mb, c, h, w)) := call in
               ker_bwd nhwc (mk_shape 1 2 1 2) unit_desc
                       {| in_src := ones; in_diff_dst := ones;
                          in_ws := None |} b d mb c h w)
            (rev (loop_nest nhwc (mk_shape 1 2 1 2))) ones 3
  = execute_backward nhwc (mk_shape 1 2 1 2) unit_desc
                     {| in_src := ones; in_diff_dst := ones; in_ws := None |}
                     ones 3.
Proof.
  refine (proj2 (pass_order_independent
                   nhwc (mk_shape 1 2 1 2) unit_desc
                   (rev (loop_nest nhwc (mk_shape 1 2 1 2))) _ _ _ _)
                {| in_src := ones; in_diff_dst := ones; in_ws := None |}
                ones 3).
  - discriminate.
  - unfold nonneg_shape; cbn; lia.
  - intros Hb. discriminate Hb.
  - apply Permutation_rev.
Defined.

(** * Further properties of the kernels *)

(** ** What a kernel call reads *)

Lemma fold_left_ext_in {A B : Type} (f g : A -> B -> A) (l : list B) :
  (forall a x, In x l -> f a x = g a x) ->
  forall a, fold_left f l a = fold_left g l a.
Proof.
  induction l as [|x l IH]; intros Hfg a; [reflexivity|].
  cbn [fold_left]. rewrite (Hfg a x (or_introl eq_refl)).
  apply IH. intros a' y Hy. apply Hfg. right. exact Hy.
Qed.

Lemma sum_sq_ext {F : Type} {ops : FloatOps F} (src1 src2 : buffer F)
      (offs : list Z) :
  (forall o, In o offs -> src1 o = src2 o) ->
  sum_sq src1 offs = sum_sq src2 offs.
Proof.
  intros Hagree. rewrite !sum_sq_values. f_equal.
  apply map_ext_in. exact Hagree.
Qed.

Lemma bwd_value_ext {F : Type} {ops : FloatOps F} (fmt : memory_format)
      (s : lrn_shape) (desc : lrn_desc F) (src1 src2 dy1 dy2 : buffer F)
      (mb oc oh ow : Z) :
  (forall o, In o (data_off fmt s mb oc oh ow
                   :: bwd_window fmt s desc mb oc oh ow) ->
             src1 o = src2 o /\ dy1 o = dy2 o) ->
  bwd_value fmt s desc src1 dy1 mb oc oh ow
  = bwd_value fmt s desc src2 dy2 mb oc oh ow.
Proof.
  intros Hagree. unfold bwd_value.
  assert (Hom : forall c, bwd_omega fmt s desc src1 mb oc oh ow c
                          = bwd_omega fmt s desc src2 mb oc oh ow c).
  { intros c. unfold bwd_omega. f_equal. f_equal. f_equal.
    apply sum_sq_ext. intros o Ho. apply Hagree. right. exact Ho. }
  rewrite (fold_left_ext_in
             (bwd_step fmt s desc src1 dy1 mb oc oh ow)
             (bwd_step fmt s desc src2 dy2 mb oc oh ow)).
  - destruct (fold_left _ _ _) as [B m].
    destruct (Hagree (data_off fmt s mb oc oh ow) (or_introl eq_refl))
      as [-> ->].
    reflexivity.
  - intros [B m] c Hc. unfold bwd_step. rewrite Hom.
    assert (Hin : In (data_off fmt s mb c oh ow)
                     (data_off fmt s mb oc oh ow
                      :: bwd_window fmt s desc mb oc oh ow))
      by (right; exact (in_map (fun i => data_off fmt s mb i oh ow) _ _ Hc)).
    destruct (Hagree _ Hin) as [-> ->]. reflexivity.
Qed.

(** X4.  A kernel call looks at its window only.  The value the forward
    kernel stores for a coordinate is the same for two [src] buffers that
    agree at the offset of the coordinate and at the offsets of its window;
    the value the backward kernel stores is the same for two pairs of [src]
    and [diff_dst] buffers that agree at those offsets of the channel
    window. *)
Theorem kernel_reads_its_window_only {F : Type} {ops : FloatOps F}
        (fmt : memory_format) (s : lrn_shape) (desc : lrn_desc F)
        (mb oc oh ow d : Z) :
  (forall (src1 src2 : buffer F) (st : fwd_state F),
      (forall o, In o (data_off fmt s mb oc oh ow
                       :: fwd_window fmt s desc mb oc oh ow) ->
                 src1 o = src2 o) ->
      ker_fwd fmt s desc src1 st d mb oc oh ow
      = ker_fwd fmt s desc src2 st d mb oc oh ow) /\
  (forall (src1 src2 dy1 dy2 ws1 ws2 diff_src : _),
      (forall o, In o (data_off fmt s mb oc oh ow
                       :: bwd_window fmt s desc mb oc oh ow) ->
                 src1 o = src2 o /\ dy1 o = dy2 o) ->
      ker_bwd fmt s desc
              {| in_src := src1; in_diff_dst := dy1; in_ws := ws1 |}
              diff_src d mb oc oh ow
      = ker_bwd fmt s desc
                {| in_src := src2; in_diff_dst := dy2; in_ws := ws2 |}
                diff_src d mb oc oh ow).
Proof.
  split.
  - intros src1 src2 st Hagree. unfold ker_fwd, fwd_omega.
    rewrite (sum_sq_ext src1 src2)
      by (intros o Ho; apply Hagree; right; exact Ho).
    rewrite (Hagree (data_off fmt s mb oc oh ow) (or_introl eq_refl)).
    reflexivity.
  - intros src1 src2 dy1 dy2 ws1 ws2 diff_src Hagree.
    unfold ker_bwd. cbn [in_src in_diff_dst].
    rewrite (bwd_value_ext fmt s desc src1 src2 dy1 dy2) by assumption.
    reflexivity.
Qed.

Lemma kernel_reads_its_window_only_witness :
  ker_fwd nchw (mk_shape 1 4 1 1) unit_desc ones zero_state 0 0 0 0 0
  = ker_fwd nchw (mk_shape 1 4 1 1) unit_desc
            (fun o => if o =? 0 then 1%R else 7%R) zero_state 0 0 0 0 0.
Proof.
  apply (kernel_reads_its_window_only nchw (mk_shape 1 4 1 1) unit_desc
           0 0 0 0 0).
  intros o Ho. vm_compute in Ho.
  destruct Ho as [<- | [<- | []]]; reflexivity.
Defined.

(** ** Layout independence of the backward pass *)

Lemma bwd_value_layouts {F : Type} {ops : FloatOps F}
      (fmt1 fmt2 : memory_format) (s : lrn_shape) (desc : lrn_desc F)
      (src1 src2 dy1 dy2 : buffer F) (x dx : tensor F) (mb oc oh ow : Z) :
  represents fmt1 s src1 x -> represents fmt2 s src2 x ->
  represents fmt1 s dy1 dx -> represents fmt2 s dy2 dx ->
  valid_coord s mb oc oh ow ->
  bwd_value fmt1 s desc src1 dy1 mb oc oh ow
  = bwd_value fmt2 s desc src2 dy2 mb oc oh ow.
Proof.
  intros Hx1 Hx2 Hd1 Hd2 (Hmb & Hc & Hh & Hw).
  assert (Hval : forall c, In c (bwd_channels s desc oc) ->
                           valid_coord s mb c oh ow).
  { intros c Hin. unfold bwd_channels in Hin. apply in_range in Hin.
    unfold valid_coord. lia. }
  unfold bwd_value.
  assert (Hom : forall c, bwd_omega fmt1 s desc src1 mb oc oh ow c
                          = bwd_omega fmt2 s desc src2 mb oc oh ow c).
  { intros c. unfold bwd_omega, bwd_window. rewrite !sum_sq_values, !map_map.
    f_equal. f_equal. f_equal. f_equal.
    apply map_ext_in. intros i Hi.
    pose proof (Hx1 _ _ _ _ (Hval i Hi)) as E1.
    pose proof (Hx2 _ _ _ _ (Hval i Hi)) as E2.
    unfold view in E1, E2. congruence. }
  rewrite (fold_left_ext_in
             (bwd_step fmt1 s desc src1 dy1 mb oc oh ow)
             (bwd_step fmt2 s desc src2 dy2 mb oc oh ow)).
  - destruct (fold_left _ _ _) as [B m].
    assert (Hv : valid_coord s mb oc oh ow) by (unfold valid_coord; lia).
    pose proof (Hx1 _ _ _ _ Hv) as E1. pose proof (Hx2 _ _ _ _ Hv) as E2.
    pose proof (Hd1 _ _ _ _ Hv) as E3. pose proof (Hd2 _ _ _ _ Hv) as E4.
    unfold view in E1, E2, E3, E4. rewrite E1, E2, E3, E4. reflexivity.
  - intros [B m] c' Hc'. unfold bwd_step. rewrite Hom.
    pose proof (Hval c' Hc') as Hv'.
    pose proof (Hx1 _ _ _ _ Hv') as E1.
    pose proof (Hx2 _ _ _ _ Hv') as E2.
    pose proof (Hd1 _ _ _ _ Hv') as E3.
    pose proof (Hd2 _ _ _ _ Hv') as E4.
    unfold view in E1, E2, E3, E4. rewrite E1, E2, E3, E4. reflexivity.
Qed.

(** X5.  With whole blocks the backward pass gives the same logical
    gradient under any two of nchw, nhwc, nChw8c and nChw16c: when the two
    [src] buffers hold one logical tensor and the two [diff_dst] buffers hold
    one logical tensor, each in its layout, the two [diff_src] buffers hold
    the same value at every valid coordinate, each at the offset of its
    layout. *)
Theorem backward_layout_equivalence {F : Type} {ops : FloatOps F}
        (fmt1 fmt2 : memory_format) (s : lrn_shape) (desc : lrn_desc F)
        (x dx : tensor F) (inp1 inp2 : bwd_inputs F) (b1 b2 : buffer F)
        (mb c h w : Z) :
  fmt1 <> any -> fmt2 <> any -> nonneg_shape s ->
  whole_blocks fmt1 s -> whole_blocks fmt2 s ->
  represents fmt1 s (in_src inp1) x -> represents fmt2 s (in_src inp2) x ->
  represents fmt1 s (in_diff_dst inp1) dx ->
  represents fmt2 s (in_diff_dst inp2) dx ->
  valid_coord s mb c h w ->
  view fmt1 s (execute_backward fmt1 s desc inp1 b1) mb c h w
  = view fmt2 s (execute_backward fmt2 s desc inp2 b2) mb c h w.
Proof.
  intros Hf1 Hf2 Hs Hwb1 Hwb2 Hx1 Hx2 Hd1 Hd2 Hv. unfold view.
  rewrite !execute_backward_at by assumption.
  apply (bwd_value_layouts fmt1 fmt2 s desc _ _ _ _ x dx); assumption.
Qed.

Lemma backward_layout_equivalence_witness :
  view nhwc (mk_shape 2 8 2 2)
       (execute_backward nhwc (mk_shape 2 8 2 2) unit_desc
          {| in_src := ones; in_diff_dst := ones; in_ws := None |} ones)
       1 5 0 1
  = view nChw8c (mk_shape 2 8 2 2)
         (execute_backward nChw8c (mk_shape 2 8 2 2) unit_desc
            {| in_src := ones; in_diff_dst := ones; in_ws := None |} ones)
         1 5 0 1.
Proof.
  refine (backward_layout_equivalence
            nhwc nChw8c (mk_shape 2 8 2 2) unit_desc
            (fun _ _ _ _ => 1%R) (fun _ _ _ _ => 1%R)
            {| in_src := ones; in_diff_dst := ones; in_ws := None |}
            {| in_src := ones; in_diff_dst := ones; in_ws := None |}
            ones ones 1 5 0 1 _ _ _ _ _ _ _ _ _ _).
  - discriminate.
  - discriminate.
  - unfold nonneg_shape; cbn; lia.
  - intros Hb. discriminate Hb.
  - intros _. reflexivity.
  - intros mb c h w _. reflexivity.
  - intros mb c h w _. reflexivity.
  - intros mb c h w _. reflexivity.
  - intros mb c h w _. reflexivity.
  - unfold valid_coord; cbn; lia.
Defined.

(** ** Degenerate parameters, in real arithmetic *)

Lemma fast_negative_powf_zero_beta (x : R) :
  @fast_negative_powf R R_ops x 0%R = 1%R.
Proof.
  rewrite fast_negative_powf_general by lra.
  unfold Rpower. rewrite Rmult_0_l, exp_0. lra.
Qed.

(** X6.  With [alpha = 0] the forward kernel scales every element by the
    one factor [k^(-beta)] of the helper, whatever the window holds, and the
    backward kernel scales the upstream gradient by that same factor (the
    cross term vanishes): backward is then the exact derivative of
    forward. *)
Theorem zero_alpha_uniform_scaling (fmt : memory_format) (s : lrn_shape)
        (desc : lrn_desc R) (d mb oc oh ow : Z) :
  lrn_alpha desc = 0%R ->
  (forall (src : buffer R) (st : fwd_state R),
      dst (ker_fwd fmt s desc src st d mb oc oh ow) d
      = (src (data_off fmt s mb oc oh ow)
         * fast_negative_powf (lrn_k desc) (lrn_beta desc))%R) /\
  (1 <= local_size desc -> 0 <= oc < C s ->
   forall (inp : bwd_inputs R) (diff_src : buffer R),
     ker_bwd fmt s desc inp diff_src d mb oc oh ow d
     = (fast_negative_powf (lrn_k desc) (lrn_beta desc)
        * in_diff_dst inp (data_off fmt s mb oc oh ow))%R).
Proof.
  intros Ha. split.
  - intros src st. rewrite ker_fwd_dst, upd_same.
    unfold fwd_value, fwd_omega. rewrite Ha.
    cbn [f_add f_mul f_div f_of_int R_ops].
    replace (lrn_k desc
             + 0 * sum_sq src (fwd_window fmt s desc mb oc oh ow)
               / IZR (summands desc))%R
      with (lrn_k desc) by (unfold Rdiv; ring).
    reflexivity.
  - intros Hsz Hoc inp diff_src. unfold ker_bwd. rewrite upd_same.
    rewrite bwd_value_shape by assumption. cbv zeta.
    unfold bwd_omega. rewrite Ha.
    cbn [f_add f_sub f_mul f_div f_of_int R_ops].
    replace (lrn_k desc
             + sum_sq (in_src inp) (bwd_window fmt s desc mb oc oh ow) * 0
               / IZR (local_size desc))%R
      with (lrn_k desc) by (unfold Rdiv; ring).
    unfold Rdiv. ring.
Qed.

Lemma zero_alpha_uniform_scaling_witness :
  dst (ker_fwd nchw (mk_shape 1 4 1 1)
               {| lrn_alpha := 0%R; lrn_beta := (3 / 4)%R; lrn_k := 2%R;
                  local_size := 5; across_channels := true |}
               src3 zero_state 1 0 1 0 0) 1
  = (src3 (data_off nchw (mk_shape 1 4 1 1) 0 1 0 0)
     * fast_negative_powf 2 (3 / 4))%R.
Proof.
  refine (proj1 (zero_alpha_uniform_scaling
                   nchw (mk_shape 1 4 1 1)
                   {| lrn_alpha := 0%R; lrn_beta := (3 / 4)%R; lrn_k := 2%R;
                      local_size := 5; across_channels := true |}
                   1 0 1 0 0 _) src3 zero_state).
  reflexivity.
Defined.

(** X7.  With [beta = 0] the forward kernel copies [src] and the backward
    kernel copies [diff_dst], whatever the other parameters and the window
    hold. *)
Theorem zero_beta_is_copy (fmt : memory_format) (s : lrn_shape)
        (desc : lrn_desc R) (d mb oc oh ow : Z) :
  lrn_beta desc = 0%R ->
  (forall (src : buffer R) (st : fwd_state R),
      dst (ker_fwd fmt s desc src st d mb oc oh ow) d
      = src (data_off fmt s mb oc oh ow)) /\
  (forall (inp : bwd_inputs R) (diff_src : buffer R),
      ker_bwd fmt s desc inp diff_src d mb oc oh ow d
      = in_diff_dst inp (data_off fmt s mb oc oh ow)).
Proof.
  intros Hb. split.
  - intros src st. rewrite ker_fwd_dst, upd_same. unfold fwd_value.
    rewrite Hb, fast_negative_powf_zero_beta.
    cbn [f_mul R_ops]. ring.
  - intros inp diff_src. unfold ker_bwd. rewrite upd_same. unfold bwd_value.
    destruct (fold_left _ _ _) as [B m].
    rewrite Hb, fast_negative_powf_zero_beta.
    cbn [f_sub f_mul f_div f_of_int R_ops]. unfold Rdiv. ring.
Qed.

Lemma zero_beta_is_copy_witness :
  dst (ker_fwd nhwc (mk_shape 1 4 2 2)
               {| lrn_alpha := 1%R; lrn_beta := 0%R; lrn_k := 1%R;
                  local_size := 3; across_channels := false |}
               src3 zero_state 9 0 1 1 0) 9
  = src3 (data_off nhwc (mk_shape 1 4 2 2) 0 1 1 0).
Proof.
  refine (proj1 (zero_beta_is_copy
                   nhwc (mk_shape 1 4 2 2)
                   {| lrn_alpha := 1%R; lrn_beta := 0%R; lrn_k := 1%R;
                      local_size := 3; across_channels := false |}
                   9 0 1 1 0 _) src3 zero_state).
  reflexivity.
Defined.

(** ** The size of the forward result *)

Lemma summands_pos {F : Type} (desc : lrn_desc F) :
  1 <= local_size desc -> 1 <= summands desc.
Proof.
  intros Hsz. unfold summands. destruct (across_channels desc); nia.
Qed.

Lemma fwd_omega_ge_k (fmt : memory_format) (s : lrn_shape)
      (desc : lrn_desc R) (src : buffer R) (mb oc oh ow : Z) :
  (0 <= lrn_alpha desc)%R -> 1 <= local_size desc ->
  (lrn_k desc <= fwd_omega fmt s desc src mb oc oh ow)%R.
Proof.
  intros Ha Hsz. unfold fwd_omega. rewrite sum_sq_values.
  cbn [f_add f_mul f_div f_of_int R_ops].
  pose proof (sum_squares_nonneg
                (map src (fwd_window fmt s desc mb oc oh ow))) as HS.
  assert (Hn : (0 < IZR (summands desc))%R)
    by (apply IZR_lt; pose proof (summands_pos desc Hsz); lia).
  assert (Hq : (0 <= lrn_alpha desc
                     * sum_squares
                         (map src (fwd_window fmt s desc mb oc oh ow))
                     / IZR (summands desc))%R).
  { apply Rmult_le_pos; [nra|]. left. apply Rinv_0_lt_compat. exact Hn. }
  lra.
Qed.

(** X8.  For [k > 0], [alpha >= 0], [beta >= 0] and [local_size >= 1] the
    forward kernel multiplies its element by a factor in (0, k^(-beta)]: the
    output has the sign of the input and its magnitude is at most
    [|src| * k^(-beta)]. *)
Theorem forward_factor_bounded (fmt : memory_format) (s : lrn_shape)
        (desc : lrn_desc R) (src : buffer R) (st : fwd_state R)
        (d mb oc oh ow : Z) :
  (0 < lrn_k desc)%R -> (0 <= lrn_alpha desc)%R -> (0 <= lrn_beta desc)%R ->
  1 <= local_size desc ->
  let v := src (data_off fmt s mb oc oh ow) in
  let out := dst (ker_fwd fmt s desc src st d mb oc oh ow) d in
  (exists p : R,
      out = (v * p)%R /\ (0 < p <= Rpower (lrn_k desc) (- lrn_beta desc))%R) /\
  (Rabs out <= Rabs v * Rpower (lrn_k desc) (- lrn_beta desc))%R.
Proof.
  intros Hk Ha Hb Hsz v out.
  pose proof (fwd_omega_ge_k fmt s desc src mb oc oh ow Ha Hsz) as Hom.
  set (omega := fwd_omega fmt s desc src mb oc oh ow) in *.
  assert (Hout : out = (v * Rpower omega (- lrn_beta desc))%R).
  { subst out. rewrite ker_fwd_dst, upd_same. unfold fwd_value.
    fold omega. rewrite fast_negative_powf_Rpower by lra. reflexivity. }
  assert (Hp : (0 < Rpower omega (- lrn_beta desc)
                <= Rpower (lrn_k desc) (- lrn_beta desc))%R).
  { split; [apply exp_pos|].
    rewrite !Rpower_Ropp. apply Rinv_le_contravar; [apply exp_pos|].
    apply Rle_Rpower_l; lra. }
  split.
  - exists (Rpower omega (- lrn_beta desc)). split; assumption.
  - rewrite Hout, Rabs_mult.
    rewrite (Rabs_pos_eq (Rpower omega (- lrn_beta desc))) by lra.
    apply Rmult_le_compat_l; [apply Rabs_pos | lra].
Qed.

Lemma forward_factor_bounded_witness :
  let out :=
    dst (ker_fwd nchw (mk_shape 1 4 1 1) unit_desc ones zero_state
                 0 0 0 0 0) 0 in
  let v := ones (data_off nchw (mk_shape 1 4 1 1) 0 0 0 0) in
  (Rabs out <= Rabs v * Rpower (lrn_k unit_desc) (- lrn_beta unit_desc))%R.
Proof.
  apply (forward_factor_bounded nchw (mk_shape 1 4 1 1) unit_desc ones
           zero_state 0 0 0 0 0).
  - cbn. lra.
  - cbn. lra.
  - cbn. lra.
  - cbn. lia.
Defined.

(** ** The backward kernel as a map of the upstream gradient *)

Lemma cross_term_linear (coef : Z -> R) (q : Z -> Z) (dy1 dy2 : buffer R)
      (a : R) (l : list Z) :
  forall B1 B2 : R,
    fold_left (fun B c => (B + coef c * (a * dy1 (q c) + dy2 (q c)))%R)
              l (a * B1 + B2)%R
    = (a * fold_left (fun B c => (B + coef c * dy1 (q c))%R) l B1
       + fold_left (fun B c => (B + coef c * dy2 (q c))%R) l B2)%R.
Proof.
  induction l as [|c l IH]; intros B1 B2; [reflexivity|].
  cbn [fold_left]. rewrite <- IH. f_equal. ring.
Qed.

(** X9.  The value the backward kernel stores is linear in the upstream
    gradient: for [diff_dst = a * dy1 + dy2] it is [a] times the value for
    [dy1] plus the value for [dy2] (so a zero gradient gives zero). *)
Theorem backward_linear_in_diff_dst (fmt : memory_format) (s : lrn_shape)
        (desc : lrn_desc R) (src dy1 dy2 : buffer R) (a : R)
        (mb oc oh ow : Z) :
  bwd_value fmt s desc src (fun o => (a * dy1 o + dy2 o)%R) mb oc oh ow
  = (a * bwd_value fmt s desc src dy1 mb oc oh ow
     + bwd_value fmt s desc src dy2 mb oc oh ow)%R.
Proof.
  unfold bwd_value. rewrite !bwd_loop.
  cbn [f_add f_sub f_mul f_div f_of_int R_ops].
  pose proof (cross_term_linear
                (fun c =>
                   (1 / bwd_omega fmt s desc src mb oc oh ow oc
                    * (src (data_off fmt s mb c oh ow)
                       * fast_negative_powf
                           (bwd_omega fmt s desc src mb oc oh ow oc)
                           (lrn_beta desc)))%R)
                (fun c => data_off fmt s mb c oh ow)
                dy1 dy2 a (bwd_channels s desc oc) 0%R 0%R) as Hlin.
  replace (a * 0 + 0)%R with 0%R in Hlin by ring.
  rewrite Hlin. ring.
Qed.

(** ** Where the backward kernel meets the formula of the specification *)

Lemma shared_window {F : Type} (s : lrn_shape) (desc : lrn_desc F) (oc c : Z) :
  1 <= local_size desc -> 0 <= oc < C s ->
  local_size desc <= 2 \/ C s <= spec_half desc + 1 ->
  In c (clamped oc (spec_half desc) (C s)) ->
  clamped c (spec_half desc) (C s) = clamped oc (spec_half desc) (C s).
Proof.
  intros Hsz Hoc Hcase Hin.
  assert (Hhalf : 0 <= spec_half desc)
    by (unfold spec_half; apply Z.div_pos; lia).
  pose proof (in_clamped _ _ _ _ Hin) as Hc.
  unfold clamped in Hin. apply filter_In in Hin. destruct Hin as [_ Hwin].
  apply andb_true_iff in Hwin. destruct Hwin as [Hlo Hhi].
  apply Z.leb_le in Hlo, Hhi.
  destruct Hcase as [Hsmall | Hwide].
  - assert (H0 : spec_half desc = 0)
      by (unfold spec_half; apply Z.div_small; lia).
    rewrite H0 in *. replace c with oc by lia. reflexivity.
  - rewrite !clamped_range. f_equal; lia.
Qed.

(** X10.  When every channel of the window of [oc] has the window of [oc]
    (a window of one channel, [local_size <= 2], or a window that covers
    all the channels, [C <= half + 1]), the backward kernel stores the value
    of the specification's formula, in real arithmetic. *)
Theorem backward_matches_formula_on_shared_window
        (fmt : memory_format) (s : lrn_shape) (desc : lrn_desc R)
        (src diff_dst : buffer R) (mb oc oh ow : Z) :
  1 <= local_size desc -> 0 <= oc < C s ->
  local_size desc <= 2 \/ C s <= spec_half desc + 1 ->
  bwd_value fmt s desc src diff_dst mb oc oh ow
  = spec_backward s desc (view fmt s src) (view fmt s diff_dst) mb oc oh ow.
Proof.
  intros Hsz Hoc Hcase.
  rewrite bwd_value_shape by assumption. cbv zeta.
  rewrite (bwd_omega_center fmt s desc src mb oc oh ow oc) by assumption.
  unfold spec_backward, spec_B.
  assert (Hch : bwd_channels s desc oc = clamped oc (spec_half desc) (C s)).
  { unfold bwd_channels, half_ksize, spec_half.
    rewrite clamped_range, Z.quot_div_nonneg by lia. reflexivity. }
  rewrite Hch.
  rewrite (fold_left_ext_in
             (fun B c =>
                f_add B
                  (f_mul
                     (f_mul
                        (f_div (f_of_int 1)
                           (spec_channel_omega s desc (view fmt s src)
                                               mb oc oh ow))
                        (f_mul (src (data_off fmt s mb c oh ow))
                           (fast_negative_powf
                              (spec_channel_omega s desc (view fmt s src)
                                                  mb oc oh ow)
                              (lrn_beta desc))))
                     (diff_dst (data_off fmt s mb c oh ow))))
             (fun B c =>
                let omega_c :=
                  spec_channel_omega s desc (view fmt s src) mb c oh ow in
                f_add B
                  (f_mul
                     (f_mul (f_div (f_of_int 1) omega_c)
                        (f_mul (view fmt s src mb c oh ow)
                           (fast_negative_powf omega_c (lrn_beta desc))))
                     (view fmt s diff_dst mb c oh ow)))).
  - reflexivity.
  - intros B c Hc. cbv zeta.
    assert (Hw : spec_channel_omega s desc (view fmt s src) mb c oh ow
                 = spec_channel_omega s desc (view fmt s src) mb oc oh ow).
    { unfold spec_channel_omega.
      rewrite (shared_window s desc oc c) by assumption. reflexivity. }
    rewrite Hw. reflexivity.
Qed.

Lemma backward_matches_formula_on_shared_window_witness :
  bwd_value nchw (mk_shape 1 2 1 1) desc3 src3 ones 0 1 0 0
  = spec_backward (mk_shape 1 2 1 1) desc3
                  (view nchw (mk_shape 1 2 1 1) src3)
                  (view nchw (mk_shape 1 2 1 1) ones) 0 1 0 0.
Proof.
  apply (backward_matches_formula_on_shared_window
           nchw (mk_shape 1 2 1 1) desc3 src3 ones 0 1 0 0).
  - cbn. lia.
  - cbn. lia.
  - right. vm_compute. discriminate.
Defined.

(** ** The number of terms of the forward sum *)

Lemma length_range (lo hi : Z) : length (range lo hi) = Z.to_nat (hi - lo).
Proof. rewrite range_seq, length_map, length_seq. reflexivity. Qed.

Lemma length_flat_map_const {A B : Type} (f : A -> list B) (n : nat)
      (l : list A) :
  (forall a, length (f a) = n) ->
  length (flat_map f l) = (length l * n)%nat.
Proof.
  intros Hf. induction l as [|a l IH]; [reflexivity|].
  cbn [flat_map length]. rewrite length_app, Hf, IH. reflexivity.
Qed.

Lemma length_fwd_window {F : Type} (fmt : memory_format) (s : lrn_shape)
      (desc : lrn_desc F) (mb oc oh ow : Z) :
  length (fwd_window fmt s desc mb oc oh ow)
  = if across_channels desc then
      Z.to_nat (Z.min (oc + half_size desc + 1) (C s)
                - Z.max (oc - half_size desc + 0) 0)
    else
      (Z.to_nat (Z.min (oh + half_size desc + 1) (H s)
                 - Z.max (oh - half_size desc + 0) 0)
       * Z.to_nat (Z.min (ow + half_size desc + 1) (W s)
                   - Z.max (ow - half_size desc + 0) 0))%nat.
Proof.
  unfold fwd_window. destruct (across_channels desc).
  - rewrite length_map, length_range. reflexivity.
  - rewrite (length_flat_map_const _
               (Z.to_nat (Z.min (ow + half_size desc + 1) (W s)
                          - Z.max (ow - half_size desc + 0) 0))).
    + rewrite length_range. reflexivity.
    + intros h. rewrite length_map, length_range. reflexivity.
Qed.

(** X11.  The forward sum never has more terms than [summands], the number
    it is divided by; for an odd [local_size] it has exactly [summands]
    terms when the window lies inside the tensor (at least [half] channels,
    or rows and columns, on each side of the coordinate), and fewer at the
    borders. *)
Theorem window_terms_at_most_summands {F : Type} (fmt : memory_format)
        (s : lrn_shape) (desc : lrn_desc F) (mb oc oh ow : Z) :
  1 <= local_size desc ->
  Z.of_nat (length (fwd_window fmt s desc mb oc oh ow)) <= summands desc /\
  (Z.odd (local_size desc) = true ->
   (if across_channels desc
    then half_size desc <= oc /\ oc + half_size desc < C s
    else (half_size desc <= oh /\ oh + half_size desc < H s) /\
         (half_size desc <= ow /\ ow + half_size desc < W s)) ->
   Z.of_nat (length (fwd_window fmt s desc mb oc oh ow)) = summands desc).
Proof.
  intros Hsz. rewrite length_fwd_window. unfold summands.
  assert (Hhalf : 0 <= half_size desc /\ 2 * half_size desc + 1 <= local_size desc).
  { unfold half_size. rewrite Z.quot_div_nonneg by lia.
    pose proof (Z.div_mod (local_size desc - 1) 2 ltac:(lia)).
    pose proof (Z.mod_pos_bound (local_size desc - 1) 2 ltac:(lia)).
    lia. }
  split.
  - destruct (across_channels desc); [lia|].
    rewrite Nat2Z.inj_mul. nia.
  - intros Hodd Hin.
    assert (Hfull : 2 * half_size desc + 1 = local_size desc).
    { unfold half_size. rewrite Z.quot_div_nonneg by lia.
      apply Z.odd_spec in Hodd. destruct Hodd as [m Hm].
      pose proof (Z.div_mod (local_size desc - 1) 2 ltac:(lia)).
      pose proof (Z.mod_pos_bound (local_size desc - 1) 2 ltac:(lia)).
      lia. }
    destruct (across_channels desc); [lia|].
    rewrite Nat2Z.inj_mul. nia.
Qed.

Lemma window_terms_at_most_summands_witness :
  Z.of_nat (length (fwd_window nchw (mk_shape 1 4 1 1) desc3 0 0 0 0))
  <= summands desc3.
Proof.
  apply (window_terms_at_most_summands nchw (mk_shape 1 4 1 1) desc3 0 0 0 0).
  cbn. lia.
Defined.

(** ** The number of calls of a pass *)

Lemma length_block_starts (n blk : Z) :
  0 < blk -> 0 <= n ->
  length (for_range 0 n blk) = Z.to_nat ((n + blk - 1) / blk).
Proof.
  intros Hblk Hn. unfold for_range.
  pose proof (Z.div_mod (n + blk - 1) blk ltac:(lia)) as Hdm.
  pose proof (Z.mod_pos_bound (n + blk - 1) blk Hblk) as Hm.
  assert (Hq : 0 <= (n + blk - 1) / blk) by (apply Z.div_pos; lia).
  set (q := (n + blk - 1) / blk) in *.
  rewrite (for_loop_count (Z.to_nat q)).
  - rewrite length_map, length_seq. reflexivity.
  - nia.
  - intros i Hi. nia.
  - nia.
Qed.

(** X12.  For a shape without negative dimensions a pass makes
    [MB * ceil(C / blksize) * H * W * blksize] kernel calls under a blocked
    format and [MB * C * H * W] calls under the others: the blocked nests
    make one call per lane of every block they start, also for the lanes of
    a last, partial block. *)
Theorem number_of_kernel_calls (fmt : memory_format) (s : lrn_shape) :
  nonneg_shape s ->
  Z.of_nat (length (loop_nest fmt s))
  = if is_blocked fmt
    then MB s * ((C s + blksize fmt - 1) / blksize fmt) * H s * W s
         * blksize fmt
    else numel s.
Proof.
  intros (HMB & HC & HH & HW). unfold loop_nest, numel.
  assert (Hblk : 0 < blksize fmt) by (destruct fmt; cbn; lia).
  assert (Hq : 0 <= (C s + blksize fmt - 1) / blksize fmt)
    by (apply Z.div_pos; lia).
  destruct (is_blocked fmt) eqn:Hb.
  - rewrite (length_flat_map_const _
               (Z.to_nat ((C s + blksize fmt - 1) / blksize fmt * H s * W s
                          * blksize fmt))).
    + rewrite length_range. nia.
    + intros mb.
      rewrite (length_flat_map_const _
                 (Z.to_nat (H s * W s * blksize fmt))).
      * rewrite length_block_starts by assumption. nia.
      * intros c.
        rewrite (length_flat_map_const _ (Z.to_nat (W s * blksize fmt))).
        -- rewrite length_range. nia.
        -- intros h.
           rewrite (length_flat_map_const _ (Z.to_nat (blksize fmt))).
           ++ rewrite length_range. nia.
           ++ intros w. cbv zeta. rewrite length_map, length_range.
              f_equal. lia.
  - destruct fmt; try discriminate Hb.
    all: rewrite (length_flat_map_const _ (Z.to_nat (C s * H s * W s)));
      [ rewrite length_range; nia | intros mb ].
    + rewrite (length_flat_map_const _ (Z.to_nat (H s * W s)));
        [ rewrite length_range; nia | intros c ].
      rewrite (length_flat_map_const _ (Z.to_nat (W s)));
        [ rewrite length_range; nia | intros h ].
      rewrite length_map, length_range. f_equal. lia.
    + rewrite (length_flat_map_const _ (Z.to_nat (W s * C s)));
        [ rewrite length_range; nia | intros h ].
      rewrite (length_flat_map_const _ (Z.to_nat (C s)));
        [ rewrite length_range; nia | intros w ].
      rewrite length_map, length_range. f_equal. lia.
    + rewrite (length_flat_map_const _ (Z.to_nat (H s * W s)));
        [ rewrite length_range; nia | intros c ].
      rewrite (length_flat_map_const _ (Z.to_nat (W s)));
        [ rewrite length_range; nia | intros h ].
      rewrite length_map, length_range. f_equal. lia.
Qed.

Lemma number_of_kernel_calls_witness :
  Z.of_nat (length (loop_nest nChw8c (mk_shape 2 12 3 3))) = 288.
Proof.
  apply (number_of_kernel_calls nChw8c (mk_shape 2 12 3 3)).
  unfold nonneg_shape; cbn; lia.
Defined.

(** ** Forward and backward together *)

(** X13.  Across channels, the [omega] the backward kernel recomputes (in
    every iteration of its loop) for an output coordinate is, in real
    arithmetic, the value the forward kernel stores in the workspace for
    that coordinate; with whole blocks it is what the workspace holds there
    after the forward pass. *)
Theorem backward_omega_is_workspace_value
        (fmt : memory_format) (s : lrn_shape) (desc : lrn_desc R)
        (src : buffer R) (mb oc oh ow : Z) :
  across_channels desc = true ->
  (forall c, bwd_omega fmt s desc src mb oc oh ow c
             = fwd_omega fmt s desc src mb oc oh ow) /\
  (fmt <> any -> nonneg_shape s -> whole_blocks fmt s ->
   valid_coord s mb oc oh ow ->
   forall (dst0 w0 : buffer R),
   exists wf,
     ws (execute_forward fmt s desc src {| dst := dst0; ws := Some w0 |})
     = Some wf /\
     forall c, bwd_omega fmt s desc src mb oc oh ow c
               = wf (data_off fmt s mb oc oh ow)).
Proof.
  intros Hac.
  assert (Hom : forall c, bwd_omega fmt s desc src mb oc oh ow c
                          = fwd_omega fmt s desc src mb oc oh ow).
  { intros c. unfold bwd_omega, fwd_omega, bwd_window, bwd_channels,
      fwd_window, summands, half_ksize, half_size.
    rewrite Hac. cbn [f_add f_mul f_div R_ops].
    rewrite Rmult_comm. reflexivity. }
  split; [exact Hom|].
  intros Hfmt Hs Hwb Hv dst0 w0.
  destruct (execute_forward_ws_at fmt s desc Hfmt Hs Hwb src
              {| dst := dst0; ws := Some w0 |} w0 mb oc oh ow eq_refl Hv)
    as [wf [Hws Hwf]].
  exists wf. split; [exact Hws|].
  intros c. rewrite Hwf. apply Hom.
Qed.

Lemma backward_omega_is_workspace_value_witness :
  bwd_omega nchw shape3 desc3 src3 0 1 0 0 2
  = fwd_omega nchw shape3 desc3 src3 0 1 0 0.
Proof.
  refine (proj1 (backward_omega_is_workspace_value
                   nchw shape3 desc3 src3 0 1 0 0 _) 2).
  reflexivity.
Defined.

(** ** Symmetry in the source *)

Lemma sum_sq_opp (src : buffer R) (offs : list Z) :
  sum_sq (fun o => (- src o)%R) offs = sum_sq src offs.
Proof.
  rewrite !sum_sq_values. unfold sum_squares. generalize (@f_of_int R R_ops 0).
  induction offs as [|o offs IH]; intros acc; [reflexivity|].
  cbn [map fold_left]. rewrite <- IH. f_equal.
  cbn [f_add f_mul R_ops]. ring.
Qed.

Lemma cross_term_opp (coef : R) (src dy : buffer R) (q : Z -> Z)
      (l : list Z) :
  forall B : R,
    fold_left (fun B c => (B + coef * (- src (q c) ) * dy (q c))%R) l (- B)%R
    = (- fold_left (fun B c => (B + coef * src (q c) * dy (q c))%R) l B)%R.
Proof.
  induction l as [|c l IH]; intros B; [reflexivity|].
  cbn [fold_left]. rewrite <- IH. f_equal. ring.
Qed.

(** X14.  In real arithmetic the forward kernel is odd in [src] and the
    backward kernel is even in [src]: negating every source element negates
    the value forward stores and leaves the value backward stores
    unchanged. *)
Theorem kernels_symmetric_in_src (fmt : memory_format) (s : lrn_shape)
        (desc : lrn_desc R) (src diff_dst : buffer R) (mb oc oh ow : Z) :
  fwd_value fmt s desc (fun o => (- src o)%R) mb oc oh ow
  = (- fwd_value fmt s desc src mb oc oh ow)%R /\
  bwd_value fmt s desc (fun o => (- src o)%R) diff_dst mb oc oh ow
  = bwd_value fmt s desc src diff_dst mb oc oh ow.
Proof.
  split.
  - unfold fwd_value, fwd_omega. rewrite sum_sq_opp.
    cbn [f_mul R_ops]. ring.
  - unfold bwd_value. rewrite !bwd_loop.
    assert (Hom : bwd_omega fmt s desc (fun o => (- src o)%R) mb oc oh ow oc
                  = bwd_omega fmt s desc src mb oc oh ow oc)
      by (unfold bwd_omega; rewrite sum_sq_opp; reflexivity).
    rewrite Hom.
    set (omega := bwd_omega fmt s desc src mb oc oh ow oc).
    set (p := fast_negative_powf omega (lrn_beta desc)).
    cbn [f_add f_sub f_mul f_div f_of_int R_ops].
    pose proof (cross_term_opp (1 / omega * p)%R src diff_dst
                  (fun c => data_off fmt s mb c oh ow)
                  (bwd_channels s desc oc) 0%R) as Hopp.
    replace (- 0)%R with 0%R in Hopp by ring.
    rewrite (fold_left_ext_in
               (fun B c =>
                  (B + 1 / omega * (- src (data_off fmt s mb c oh ow) * p)
                       * diff_dst (data_off fmt s mb c oh ow))%R)
               (fun B c =>
                  (B + 1 / omega * p * - src (data_off fmt s mb c oh ow)
                       * diff_dst (data_off fmt s mb c oh ow))%R))
      by (intros; ring).
    rewrite Hopp.
    rewrite (fold_left_ext_in
               (fun B c =>
                  (B + 1 / omega * (src (data_off fmt s mb c oh ow) * p)
                       * diff_dst (data_off fmt s mb c oh ow))%R)
               (fun B c =>
                  (B + 1 / omega * p * src (data_off fmt s mb c oh ow)
                       * diff_dst (data_off fmt s mb c oh ow))%R))
      by (intros; ring).
    ring.
Qed.
